(** * Gaussian log-density, cumulative functions and sampler
      (stan/prob/distributions/univariate/continuous/normal.hpp)
      and the convergence check of 3F2
      (stan/math/prim/scal/err/check_3F2_converges.hpp)

    A shallow embedding of [normal_log], [normal_cdf], [normal_cdf_log],
    [normal_ccdf_log], [normal_rng] and [check_3F2_converges].

    A C++ [double] is modelled as a real number of the binary64 format, one
    of the two infinities, or NaN.  Addition, subtraction, multiplication,
    division and square root round the exact result to the nearest member
    of the format, ties to even, with gradual underflow, and overflow to an
    infinity; the special values follow the IEEE-754 rules.  Every
    operation is rounded on its own: no fused multiply-add, no extended
    precision.  Zero carries no sign (a division by zero treats the divisor
    as +0).  The type holds every real as a finite value; the operations
    return members of the format only.

    The functions [log], [exp], [erf] and [erfc] of the mathematical library
    are not part of the program: the evaluators take them as a parameter,
    and every property holds for every such library unless it names one.

    The headers that [normal.hpp] includes (views, traits, validation
    helpers, constants, [OperandsAndPartials]) are not among the sources;
    what the evaluators need of them is modelled from the specification and
    marked so. *)

From Stdlib Require Import Reals Lra Lia List String Bool Arith ZArith.
Import ListNotations.

Open Scope R_scope.

(** ** Rounding to binary64 *)

(** [2 ^ e]. *)
Definition bpow (e : Z) : R := powerRZ 2 e.

(** The exponent of the unit in the last place of [x]: the least
    [e >= -1074] with [|x| < 2 ^ (e + 53)], searched upwards from [e]. *)
Fixpoint fexp_from (fuel : nat) (e : Z) (x : R) : Z :=
  match fuel with
  | O => e
  | S k =>
      if Rlt_dec (Rabs x) (bpow (e + 53)) then e
      else fexp_from k (e + 1) x
  end.

(** The search covers every exponent of the format and stops at 1126,
    far above the overflow threshold. *)
Definition fexp (x : R) : Z := fexp_from (Z.to_nat 2200) (-1074) x.
Arguments fexp : simpl never.

(** The nearest integer, ties to even. *)
Definition ZnearestE (r : R) : Z :=
  let k := Zfloor r in
  if Rlt_dec (r - IZR k) (1 / 2) then k
  else if Rlt_dec (1 / 2) (r - IZR k) then (k + 1)%Z
  else if Z.even k then k else (k + 1)%Z.

(** The nearest multiple of the unit in the last place: rounding with 53
    bits of precision and a least exponent of -1074, the exponent being
    unbounded above. *)
Definition rnd_R (x : R) : R :=
  IZR (ZnearestE (x * bpow (- fexp x))) * bpow (fexp x).

(** ** The [double] model *)

Inductive double : Type :=
| Fin (r : R)
| PInf
| NInf
| NaN.

Definition Rltb (a b : R) : bool := if Rlt_dec a b then true else false.
Definition Reqb (a b : R) : bool := if Req_dec_T a b then true else false.

Definition isnan (d : double) : bool :=
  match d with NaN => true | _ => false end.

Definition isfinite (d : double) : bool :=
  match d with Fin _ => true | _ => false end.

Definition signed_inf (positive : bool) : double :=
  if positive then PInf else NInf.

(** An infinity of the given sign multiplied by the finite value [r]. *)
Definition inf_times (positive : bool) (r : R) : double :=
  if Rltb 0 r then signed_inf positive
  else if Rltb r 0 then signed_inf (negb positive)
  else NaN.

(** The double that an operation returns when its exact result is [x]:
    the rounded value, or the infinity of the sign of [x] when the rounded
    value reaches [2 ^ 1024]. *)
Definition rnd (x : R) : double :=
  if Rltb (Rabs (rnd_R x)) (bpow 1024) then Fin (rnd_R x)
  else signed_inf (Rltb 0 x).

Definition dneg (a : double) : double :=
  match a with
  | Fin x => Fin (- x)
  | PInf => NInf
  | NInf => PInf
  | NaN => NaN
  end.

Definition dadd (a b : double) : double :=
  match a, b with
  | NaN, _ | _, NaN => NaN
  | Fin x, Fin y => rnd (x + y)
  | PInf, NInf | NInf, PInf => NaN
  | PInf, _ | _, PInf => PInf
  | NInf, _ | _, NInf => NInf
  end.

Definition dsub (a b : double) : double := dadd a (dneg b).

Definition dmul (a b : double) : double :=
  match a, b with
  | NaN, _ | _, NaN => NaN
  | Fin x, Fin y => rnd (x * y)
  | Fin x, PInf | PInf, Fin x => inf_times true x
  | Fin x, NInf | NInf, Fin x => inf_times false x
  | PInf, PInf | NInf, NInf => PInf
  | PInf, NInf | NInf, PInf => NInf
  end.

Definition ddiv (a b : double) : double :=
  match a, b with
  | NaN, _ | _, NaN => NaN
  | Fin x, Fin y => if Reqb y 0 then inf_times true x else rnd (x / y)
  | Fin _, (PInf | NInf) => Fin 0
  | PInf, Fin y => signed_inf (negb (Rltb y 0))
  | NInf, Fin y => signed_inf (Rltb y 0)
  | (PInf | NInf), (PInf | NInf) => NaN
  end.

(** [a < b] on doubles: false as soon as one side is NaN. *)
Definition dlt (a b : double) : bool :=
  match a, b with
  | NaN, _ | _, NaN => false
  | Fin x, Fin y => Rltb x y
  | NInf, (Fin _ | PInf) => true
  | Fin _, PInf => true
  | _, _ => false
  end.

(** [a > b] is [b < a]. *)
Definition dgt (a b : double) : bool := dlt b a.

(** [a <= b] on doubles, used to state properties only. *)
Definition dle (a b : double) : bool :=
  match a, b with
  | NaN, _ | _, NaN => false
  | Fin x, Fin y => negb (Rltb y x)
  | NInf, _ => true
  | _, PInf => true
  | _, _ => false
  end.

Definition dsqrt (a : double) : double :=
  match a with
  | Fin x => if Rltb x 0 then NaN else rnd (sqrt x)
  | PInf => PInf
  | NInf | NaN => NaN
  end.

Declare Scope double_scope.
Delimit Scope double_scope with D.
Bind Scope double_scope with double.
Infix "+" := dadd : double_scope.
Infix "-" := dsub : double_scope.
Infix "*" := dmul : double_scope.
Infix "/" := ddiv : double_scope.
Notation "- x" := (dneg x) : double_scope.
Infix "<?" := dlt : double_scope.
Infix ">?" := dgt (at level 70) : double_scope.

(** ** The mathematical library *)

(** The four functions of the C mathematical library that the evaluators
    call.  They are external to the program; it is a parameter of the
    evaluators. *)
Record libm : Type := Libm {
  m_log : double -> double;
  m_exp : double -> double;
  m_erf : double -> double;
  m_erfc : double -> double
}.

(** ** Errors *)

(** The two kinds of failure a call can signal.  A [DomainError] carries the
    function name, the role label of the offending argument and the invalid
    value; a [ShapeMismatch] the function name, the role label, the length
    found and the length expected. *)
Inductive error : Type :=
| DomainError (function role : string) (value : double)
| ShapeMismatch (function role : string) (found expected : nat).

Inductive result (A : Type) : Type :=
| Ok (a : A)
| Err (e : error).
Arguments Ok {A} a.
Arguments Err {A} e.

Definition bind {A B : Type} (m : result A) (k : A -> result B) : result B :=
  match m with
  | Ok a => k a
  | Err e => Err e
  end.

Notation "m ;; k" := (bind m (fun _ => k))
  (at level 61, right associativity).

(** ** Arguments: scalar or sequence, constant or tracked *)

(** The data of an argument: a single value or a [std::vector] of values
    ([value_of] already applied). *)
Inductive operand : Type :=
| Scalar (x : double)
| Vector (xs : list double).

(** An argument of a distribution function.  [is_constant_struct] is the
    type trait of the same name: true for [double] and vectors of [double],
    false for the differentiable type [var] and vectors of it. *)
Record argument : Type := Arg {
  is_constant_struct : bool;
  data : operand
}.

Definition values (a : argument) : list double :=
  match data a with
  | Scalar x => [x]
  | Vector xs => xs
  end.

(** [stan::length]. *)
Definition stan_length (a : argument) : nat := List.length (values a).

(** [max_size] of three arguments. *)
Definition max_size (a b c : argument) : nat :=
  Nat.max (stan_length a) (Nat.max (stan_length b) (stan_length c)).

(** Modelled from the spec: the index computation of the Broadcast View
    ([VectorView], [DoubleVectorView]; stan/meta/traits.hpp is not among the
    sources).  Element [n] of a view is the sole stored element when the
    underlying sequence has length 1, the [n]-th stored element otherwise. *)
Definition vv_index (len n : nat) : nat :=
  if (len =? 1)%nat then 0%nat else n.

(** Modelled from the spec: read access [view[n]] of a Broadcast View. *)
Definition vv_get (xs : list double) (n : nat) : double :=
  nth (vv_index (List.length xs) n) xs NaN.

Fixpoint list_alter {A : Type} (f : A -> A) (i : nat) (l : list A)
  {struct l} : list A :=
  match l, i with
  | [], _ => []
  | x :: l', O => f x :: l'
  | x :: l', S i' => x :: list_alter f i' l'
  end.

(** Modelled from the spec: the compound assignment [view[n] op= v] on a
    Broadcast View over a derivative accumulator. *)
Definition vv_update (f : double -> double) (xs : list double) (n : nat)
  : list double :=
  list_alter f (vv_index (List.length xs) n) xs.

(** ** Validation helpers *)

(** Modelled from the spec: the validation helpers of
    stan/math/error_handling.hpp are not among the sources.  Each check
    walks the elements of its argument and fails with a [DomainError] at
    the first element that violates the named precondition. *)
Fixpoint check_all (ok : double -> bool) (function role : string)
  (xs : list double) : result unit :=
  match xs with
  | [] => Ok tt
  | x :: xs' =>
      if ok x then check_all ok function role xs'
      else Err (DomainError function role x)
  end.

(** Modelled from the spec: the check named "not-NaN". *)
Definition check_not_nan (function : string) (a : argument) (role : string)
  : result unit :=
  check_all (fun x => negb (isnan x)) function role (values a).

(** Modelled from the spec: the check named "finite". *)
Definition check_finite (function : string) (a : argument) (role : string)
  : result unit :=
  check_all isfinite function role (values a).

(** Modelled from the spec: the check named "strictly-positive"; it fails
    unless [x > 0], so it fails on NaN as well. *)
Definition check_positive (function : string) (a : argument) (role : string)
  : result unit :=
  check_all (fun x => (x >? Fin 0)%D) function role (values a).

(** Modelled from the spec: one argument of the check named
    "consistent-sizes": its length is 1 or the broadcast length. *)
Definition check_consistent_size (function : string) (a : argument)
  (role : string) (N : nat) : result unit :=
  if ((stan_length a =? 1) || (stan_length a =? N))%nat then Ok tt
  else Err (ShapeMismatch function role (stan_length a) N).

(** Modelled from the spec: the check named "consistent-sizes" on three
    arguments; it fails with [ShapeMismatch] when a length is neither 1 nor
    the maximum length. *)
Definition check_consistent_sizes (function : string) (a b c : argument)
  (ra rb rc : string) : result unit :=
  let N := max_size a b c in
  check_consistent_size function a ra N;;
  check_consistent_size function b rb N;;
  check_consistent_size function c rc N.

(** ** Constants *)

(** Modelled from the spec: [stan::math::pi()], the double nearest to pi;
    the constants of stan/math.hpp are not among the sources. *)
Definition pi : double := rnd PI.

(** Modelled from the spec: [SQRT_2], the square root of 2 that scales
    the difference [(y - mu) / (sigma * sqrt 2)]. *)
Definition SQRT_2 : double := dsqrt (Fin 2).

(** Modelled from the spec: [INV_SQRT_2], the factor [1 / sqrt 2] of the
    thresholds. *)
Definition INV_SQRT_2 : double := (Fin 1 / SQRT_2)%D.

(** Modelled from the spec: stan/prob/constants.hpp is not among the
    sources; the constant is [-0.5 * log(2 pi)]. *)
Definition NEG_LOG_SQRT_TWO_PI (M : libm) : double :=
  (Fin (-0.5) * m_log M (Fin 2 * pi))%D.

(** Modelled from the spec: the trait [include_summand<propto, T...>] of
    stan/prob/traits.hpp, given the constness of each listed type.  A term
    is kept unless the call is proportional and every parameter the term
    depends on is constant. *)
Definition include_summand (propto : bool) (constness : list bool) : bool :=
  negb propto || existsb negb constness.

(** ** Result and derivative accumulators *)

(** The returned scalar with the derivative accumulators moved into it.
    An accumulator has one slot per element of its argument when the
    argument is tracked and no slot when it is constant. *)
Record ret : Type := Ret {
  val : double;
  d_x1 : list double;
  d_x2 : list double;
  d_x3 : list double
}.

(** A plain number: the value carries no gradient metadata. *)
Definition plain (v : double) : ret := Ret v [] [] [].

(** Modelled from the spec: the accumulator that [OperandsAndPartials]
    creates for one argument (stan/agrad/partials_vari.hpp is not among the
    sources): zero-initialised, one slot per element of a tracked argument. *)
Definition partials_of (a : argument) : list double :=
  if is_constant_struct a then [] else repeat (Fin 0) (stan_length a).

(** Some argument has length zero. *)
Definition any_empty (y mu sigma : argument) : bool :=
  negb (negb (stan_length y =? 0)%nat
        && negb (stan_length mu =? 0)%nat
        && negb (stan_length sigma =? 0)%nat).

(** ** [normal_log] *)

Section NormalLog.

Local Open Scope double_scope.

Variable M : libm.
Variable propto : bool.
Variables y mu sigma : argument.

(** The constness of [T_y], [T_loc] and [T_scale]. *)
Let T_y := is_constant_struct y.
Let T_loc := is_constant_struct mu.
Let T_scale := is_constant_struct sigma.

(** The four validation calls, in the order of the source. *)
Definition normal_log_checks : result unit :=
  let function := "stan::prob::normal_log(%1%)"%string in
  check_not_nan function y "Random variable";;
  check_finite function mu "Location parameter";;
  check_positive function sigma "Scale parameter";;
  check_consistent_sizes function y mu sigma
    "Random variable" "Location parameter" "Scale parameter".

(** One iteration of the main loop, at broadcast index [n]; the state is
    the running [logp] with the three derivative accumulators. *)
Definition normal_log_body (inv_sigma log_sigma : list double)
  (st : ret) (n : nat) : ret :=
  let y_dbl := vv_get (values y) n in
  let mu_dbl := vv_get (values mu) n in
  let y_minus_mu_over_sigma := (y_dbl - mu_dbl) * vv_get inv_sigma n in
  let y_minus_mu_over_sigma_squared :=
    y_minus_mu_over_sigma * y_minus_mu_over_sigma in
  let NEGATIVE_HALF := Fin (-0.5) in
  let logp := val st in
  let logp :=
    if include_summand propto [] then logp + NEG_LOG_SQRT_TWO_PI M
    else logp in
  let logp :=
    if include_summand propto [T_scale] then logp - vv_get log_sigma n
    else logp in
  let logp :=
    if include_summand propto [T_y; T_loc; T_scale]
    then logp + NEGATIVE_HALF * y_minus_mu_over_sigma_squared
    else logp in
  let scaled_diff := vv_get inv_sigma n * y_minus_mu_over_sigma in
  let d1 :=
    if negb T_y
    then vv_update (fun d => d - scaled_diff) (d_x1 st) n
    else d_x1 st in
  let d2 :=
    if negb T_loc
    then vv_update (fun d => d + scaled_diff) (d_x2 st) n
    else d_x2 st in
  let d3 :=
    if negb T_scale
    then vv_update
           (fun d => d + (- vv_get inv_sigma n
                          + vv_get inv_sigma n
                            * y_minus_mu_over_sigma_squared))
           (d_x3 st) n
    else d_x3 st in
  Ret logp d1 d2 d3.

(** The precomputed [1 / sigma[i]]. *)
Definition normal_log_inv_sigma : list double :=
  map (fun s => Fin 1 / s) (values sigma).

(** The precomputed [log(sigma[i])], filled only when the term is kept. *)
Definition normal_log_log_sigma : list double :=
  if include_summand propto [T_scale] then map (m_log M) (values sigma)
  else [].

(** The main loop, from an arbitrary initial state. *)
Definition normal_log_loop (st : ret) : ret :=
  fold_left (normal_log_body normal_log_inv_sigma normal_log_log_sigma)
    (seq 0 (max_size y mu sigma)) st.

Definition normal_log : result ret :=
  if any_empty y mu sigma then Ok (plain (Fin 0))
  else
    normal_log_checks;;
    if negb (include_summand propto [T_y; T_loc; T_scale])
    then Ok (plain (Fin 0))
    else
      let operands_and_partials :=
        Ret (Fin 0) (partials_of y) (partials_of mu) (partials_of sigma) in
      Ok (normal_log_loop operands_and_partials).

End NormalLog.

(** ** [normal_cdf], [normal_cdf_log], [normal_ccdf_log] *)

Section Tail.

Local Open Scope double_scope.

Variable M : libm.

(** The three validation calls on values followed by the size check. *)
Definition normal_cdf_checks (function : string) (y mu sigma : argument)
  : result unit :=
  check_not_nan function y "Random variable";;
  check_finite function mu "Location parameter";;
  check_not_nan function sigma "Scale parameter";;
  check_positive function sigma "Scale parameter";;
  check_consistent_sizes function y mu sigma
    "Random variable" "Location parameter" "Scale parameter".

(** The per-element value [cdf_] of [normal_cdf]. *)
Definition normal_cdf_cdf_ (scaled_diff : double) : double :=
  if scaled_diff <? Fin (-37.5) * INV_SQRT_2 then Fin 0
  else if scaled_diff <? Fin (-5) * INV_SQRT_2
       then Fin 0.5 * m_erfc M (- scaled_diff)
  else if scaled_diff >? Fin 8.25 * INV_SQRT_2 then Fin 1
  else Fin 0.5 * (Fin 1 + m_erf M scaled_diff).

(** The per-element quantity [one_p_erf] of [normal_cdf_log]. *)
Definition normal_cdf_log_one_p_erf (scaled_diff : double) : double :=
  if scaled_diff <? Fin (-37.5) * INV_SQRT_2 then Fin 0
  else if scaled_diff <? Fin (-5) * INV_SQRT_2 then m_erfc M (- scaled_diff)
  else if scaled_diff >? Fin 8.25 * INV_SQRT_2 then Fin 2
  else Fin 1 + m_erf M scaled_diff.

(** The per-element quantity [one_m_erf] of [normal_ccdf_log]. *)
Definition normal_ccdf_log_one_m_erf (scaled_diff : double) : double :=
  if scaled_diff <? Fin (-37.5) * INV_SQRT_2 then Fin 2
  else if scaled_diff <? Fin (-5) * INV_SQRT_2
       then Fin 2 - m_erfc M (- scaled_diff)
  else if scaled_diff >? Fin 8.25 * INV_SQRT_2 then Fin 0
  else Fin 1 - m_erf M scaled_diff.

Section Evaluators.

Variables y mu sigma : argument.

Let T_y := is_constant_struct y.
Let T_loc := is_constant_struct mu.
Let T_scale := is_constant_struct sigma.

Definition SQRT_TWO_OVER_PI : double := dsqrt (Fin 2 / pi).

(** [(y[n] - mu[n]) / (sigma[n] * SQRT_2)]. *)
Definition scaled_diff_at (n : nat) : double :=
  (vv_get (values y) n - vv_get (values mu) n)
  / (vv_get (values sigma) n * SQRT_2).

(** One iteration of the main loop of [normal_cdf]. *)
Definition normal_cdf_body (st : ret) (n : nat) : ret :=
  let sigma_dbl := vv_get (values sigma) n in
  let scaled_diff := scaled_diff_at n in
  let cdf_ := normal_cdf_cdf_ scaled_diff in
  let cdf := val st * cdf_ in
  let rep_deriv :=
    SQRT_TWO_OVER_PI * Fin 0.5 * m_exp M (- scaled_diff * scaled_diff)
    / cdf_ / sigma_dbl in
  let d1 :=
    if negb T_y
    then vv_update (fun d => d + rep_deriv) (d_x1 st) n
    else d_x1 st in
  let d2 :=
    if negb T_loc
    then vv_update (fun d => d - rep_deriv) (d_x2 st) n
    else d_x2 st in
  let d3 :=
    if negb T_scale
    then vv_update (fun d => d - rep_deriv * scaled_diff * SQRT_2)
           (d_x3 st) n
    else d_x3 st in
  Ret cdf d1 d2 d3.

Definition normal_cdf_loop (st : ret) : ret :=
  fold_left normal_cdf_body (seq 0 (max_size y mu sigma)) st.

(** The loop [for (n = 0; n < length(a); ++n) d[n] *= cdf], run for a
    tracked argument only. *)
Definition normal_cdf_rescale (a : argument) (cdf : double)
  (d : list double) : list double :=
  if negb (is_constant_struct a)
  then fold_left (fun d' n => vv_update (fun x => x * cdf) d' n)
         (seq 0 (stan_length a)) d
  else d.

Definition normal_cdf : result ret :=
  let function := "stan::prob::normal_cdf(%1%)"%string in
  let cdf := Fin 1 in
  if any_empty y mu sigma then Ok (plain cdf)
  else
    normal_cdf_checks function y mu sigma;;
    let operands_and_partials :=
      Ret cdf (partials_of y) (partials_of mu) (partials_of sigma) in
    let st := normal_cdf_loop operands_and_partials in
    let cdf := val st in
    Ok (Ret cdf
          (normal_cdf_rescale y cdf (d_x1 st))
          (normal_cdf_rescale mu cdf (d_x2 st))
          (normal_cdf_rescale sigma cdf (d_x3 st))).

(** One iteration of the main loop of [normal_cdf_log]. *)
Definition normal_cdf_log_body (log_half : double) (st : ret) (n : nat)
  : ret :=
  let sigma_dbl := vv_get (values sigma) n in
  let scaled_diff := scaled_diff_at n in
  let one_p_erf := normal_cdf_log_one_p_erf scaled_diff in
  let cdf_log := val st + (log_half + m_log M one_p_erf) in
  let rep_deriv :=
    SQRT_TWO_OVER_PI * m_exp M (- scaled_diff * scaled_diff) / one_p_erf in
  let d1 :=
    if negb T_y
    then vv_update (fun d => d + rep_deriv / sigma_dbl) (d_x1 st) n
    else d_x1 st in
  let d2 :=
    if negb T_loc
    then vv_update (fun d => d - rep_deriv / sigma_dbl) (d_x2 st) n
    else d_x2 st in
  let d3 :=
    if negb T_scale
    then vv_update
           (fun d => d - rep_deriv * scaled_diff * SQRT_2 / sigma_dbl)
           (d_x3 st) n
    else d_x3 st in
  Ret cdf_log d1 d2 d3.

Definition normal_cdf_log : result ret :=
  let function := "stan::prob::normal_cdf_log(%1%)"%string in
  let cdf_log := Fin 0 in
  if any_empty y mu sigma then Ok (plain cdf_log)
  else
    normal_cdf_checks function y mu sigma;;
    let operands_and_partials :=
      Ret cdf_log (partials_of y) (partials_of mu) (partials_of sigma) in
    let log_half := m_log M (Fin 0.5) in
    Ok (fold_left (normal_cdf_log_body log_half)
          (seq 0 (max_size y mu sigma)) operands_and_partials).

(** One iteration of the main loop of [normal_ccdf_log]. *)
Definition normal_ccdf_log_body (log_half : double) (st : ret) (n : nat)
  : ret :=
  let sigma_dbl := vv_get (values sigma) n in
  let scaled_diff := scaled_diff_at n in
  let one_m_erf := normal_ccdf_log_one_m_erf scaled_diff in
  let ccdf_log := val st + (log_half + m_log M one_m_erf) in
  let rep_deriv :=
    SQRT_TWO_OVER_PI * m_exp M (- scaled_diff * scaled_diff) / one_m_erf in
  let d1 :=
    if negb T_y
    then vv_update (fun d => d - rep_deriv / sigma_dbl) (d_x1 st) n
    else d_x1 st in
  let d2 :=
    if negb T_loc
    then vv_update (fun d => d + rep_deriv / sigma_dbl) (d_x2 st) n
    else d_x2 st in
  let d3 :=
    if negb T_scale
    then vv_update
           (fun d => d + rep_deriv * scaled_diff * SQRT_2 / sigma_dbl)
           (d_x3 st) n
    else d_x3 st in
  Ret ccdf_log d1 d2 d3.

Definition normal_ccdf_log : result ret :=
  let function := "stan::prob::normal_ccdf_log(%1%)"%string in
  let ccdf_log := Fin 0 in
  if any_empty y mu sigma then Ok (plain ccdf_log)
  else
    normal_cdf_checks function y mu sigma;;
    let operands_and_partials :=
      Ret ccdf_log (partials_of y) (partials_of mu) (partials_of sigma) in
    let log_half := m_log M (Fin 0.5) in
    Ok (fold_left (normal_ccdf_log_body log_half)
          (seq 0 (max_size y mu sigma)) operands_and_partials).

End Evaluators.

End Tail.

(** ** [normal_rng] *)

Section Sampler.

Local Open Scope double_scope.

(** The external random source: its state, and the call that draws one
    standard normal deviate and advances the state. *)
Variable RNG : Type.
Variable draw : RNG -> double * RNG.

Definition normal_rng_checks (mu sigma : double) : result unit :=
  let function := "stan::prob::normal_rng(%1%)"%string in
  check_finite function (Arg true (Scalar mu)) "Location parameter";;
  check_not_nan function (Arg true (Scalar mu)) "Location parameter";;
  check_positive function (Arg true (Scalar sigma)) "Scale parameter";;
  check_not_nan function (Arg true (Scalar sigma)) "Scale parameter".

(** The checks, then one draw transformed to [mu + sigma * draw]; the
    state of the random source is returned with the outcome. *)
Definition normal_rng (mu sigma : double) (rng : RNG)
  : result double * RNG :=
  match normal_rng_checks mu sigma with
  | Err e => (Err e, rng)
  | Ok _ =>
      let (z, rng') := draw rng in
      (Ok (mu + sigma * z), rng')
  end.

End Sampler.

(** ** [check_3F2_converges] *)

Definition dfloor (a : double) : double :=
  match a with
  | Fin x => Fin (IZR (Zfloor x))
  | _ => a
  end.

Definition dfabs (a : double) : double :=
  match a with
  | Fin x => Fin (Rabs x)
  | PInf | NInf => PInf
  | NaN => NaN
  end.

(** [a == b] on doubles: false as soon as one side is NaN. *)
Definition deq (a b : double) : bool :=
  match a, b with
  | Fin x, Fin y => Reqb x y
  | PInf, PInf | NInf, NInf => true
  | _, _ => false
  end.

(** The conversion of a [double] to [int] in an assignment: the value
    truncated, when it is finite and fits in 32 bits; it is undefined
    otherwise, which [None] stands for. *)
Definition to_int (a : double) : option Z :=
  match a with
  | Fin x =>
      let z := if Rltb x 0 then (- Zfloor (- x))%Z else Zfloor x in
      if ((- 2147483648 <=? z) && (z <=? 2147483647))%Z then Some z
      else None
  | _ => None
  end.

Section Check3F2.

Local Open Scope double_scope.

Variable function : string.
Variables a1 a2 a3 b1 b2 z : double.

(** The value of [is_polynomial]. *)
Definition is_polynomial_3F2 : bool :=
  ((a1 <? Fin 0) && deq (dfloor a1) a1)
  || ((a2 <? Fin 0) && deq (dfloor a2) a2)
  || ((a3 <? Fin 0) && deq (dfloor a3) a3).

(** The value of [num_terms] after the first block; [None] when a
    conversion to [int] is undefined. *)
Definition num_terms_3F2 : option Z :=
  let num_terms := 0%Z in
  if is_polynomial_3F2 then
    match
      (if (a1 <? Fin 0) && deq (dfloor a1) a1
          && (dfabs a1 >? Fin (IZR num_terms))
       then to_int (dfloor (dfabs a1)) else Some num_terms)
    with
    | None => None
    | Some num_terms =>
        match
          (if (a2 <? Fin 0) && deq (dfloor a2) a2
              && (dfabs a2 >? Fin (IZR num_terms))
           then to_int (dfloor (dfabs a2)) else Some num_terms)
        with
        | None => None
        | Some num_terms =>
            if (a3 <? Fin 0) && deq (dfloor a3) a3
               && (dfabs a3 >? Fin (IZR num_terms))
            then to_int (dfloor (dfabs a3)) else Some num_terms
        end
    end
  else Some num_terms.

(** The value of [is_undefined], given [num_terms]. *)
Definition is_undefined_3F2 (num_terms : Z) : bool :=
  ((b1 <? Fin 0) && deq (dfloor b1) b1
   && dle (dfabs b1) (Fin (IZR num_terms)))
  || ((b2 <? Fin 0) && deq (dfloor b2) b2
      && dle (dfabs b2) (Fin (IZR num_terms))).

(** The check: [Some (Ok tt)] when it returns, [Some (Err _)] when it
    throws [std::domain_error] (of the message only the function name is
    kept, with the value of [z]), [None] when the behaviour is undefined. *)
Definition check_3F2_converges : option (result unit) :=
  match num_terms_3F2 with
  | None => None
  | Some num_terms =>
      let is_polynomial := is_polynomial_3F2 in
      let is_undefined := is_undefined_3F2 num_terms in
      if is_polynomial && negb is_undefined then Some (Ok tt)
      else if (dfabs z <? Fin 1) && negb is_undefined then Some (Ok tt)
      else if deq (dfabs z) (Fin 1) && negb is_undefined
              && (b1 + b2 >? a1 + a2 + a3)
           then Some (Ok tt)
      else Some (Err (DomainError function
                        "hypergeometric function 3F2" z))
  end.

End Check3F2.

(** ** A reference library *)

(** The integrand of the error function is integrable on every interval. *)
Definition gauss_integrable (a b : R) :
  Riemann_integrable (fun t => exp (- (t * t))) a b.
Proof.
  destruct (Rle_dec a b) as [Hab | Hab].
  - apply continuity_implies_RiemannInt; [exact Hab | intros; reg].
  - apply RiemannInt_P1, continuity_implies_RiemannInt; [lra | intros; reg].
Defined.

(** The error function of the C mathematical library, on the reals:
    [2 / sqrt pi] times the integral of [exp (- t^2)] from 0 to [x]. *)
Definition erf (x : R) : R :=
  2 / sqrt PI * RiemannInt (gauss_integrable 0 x).

(** The complementary error function. *)
Definition erfc (x : R) : R := 1 - erf x.

(** A mathematical library that returns the correctly rounded value of
    each function, with the special values of Annex F of the C standard.
    It is the library of the concrete examples. *)
Definition cr_libm : libm := {|
  m_log := fun a =>
    match a with
    | Fin x =>
        if Rltb 0 x then rnd (ln x) else if Rltb x 0 then NaN else NInf
    | PInf => PInf
    | NInf | NaN => NaN
    end;
  m_exp := fun a =>
    match a with
    | Fin x => rnd (exp x)
    | PInf => PInf
    | NInf => Fin 0
    | NaN => NaN
    end;
  m_erf := fun a =>
    match a with
    | Fin x => rnd (erf x)
    | PInf => Fin 1
    | NInf => Fin (-1)
    | NaN => NaN
    end;
  m_erfc := fun a =>
    match a with
    | Fin x => rnd (erfc x)
    | PInf => Fin 0
    | NInf => Fin 2
    | NaN => NaN
    end
|}.

(** * Vocabulary of the properties *)

(** A member of the binary64 format: an integer of less than 53 bits
    times a power of two that is at least [2 ^ -1074]. *)
Definition representable (f : R) : Prop :=
  exists m e : Z, f = IZR m * bpow e /\ (Z.abs m < 2 ^ 53)%Z
                  /\ (-1074 <= e)%Z.

(** Two arguments whose lengths are both greater than 1 and differ. *)
Definition incompatible (a b : argument) : Prop :=
  (1 < stan_length a /\ 1 < stan_length b
   /\ stan_length a <> stan_length b)%nat.

(** The values of the three arguments pass the numeric checks. *)
Definition numeric_ok (y mu sigma : argument) : bool :=
  forallb (fun x => negb (isnan x)) (values y)
  && forallb isfinite (values mu)
  && forallb (fun x => (x >? Fin 0)%D) (values sigma).

Local Open Scope double_scope.

(** The three thresholds of the tail policy, as the source computes
    them. *)
Definition tail_low : double := Fin (-37.5) * INV_SQRT_2.
Definition tail_mid : double := Fin (-5) * INV_SQRT_2.
Definition tail_high : double := Fin 8.25 * INV_SQRT_2.


(** A random source that replays a prepared list of deviates. *)
Definition replay (rng : list double) : double * list double :=
  (hd (Fin 0) rng, tl rng).

(** [(y[n] - mu[n]) * (1 / sigma[n])], the standardised difference as
    [normal_log] computes it. *)
Definition z_at (y mu sigma : argument) (n : nat) : double :=
  (vv_get (values y) n - vv_get (values mu) n)
  * (Fin 1 / vv_get (values sigma) n).

(** The running sum of [normal_log] after the terms of index [n]: [c]
    tells whether the constant is added and [s] whether [log sigma[n]] is
    subtracted. *)
Definition log_term (M : libm) (c s : bool) (y mu sigma : argument)
  (logp : double) (n : nat) : double :=
  let logp := if c then logp + NEG_LOG_SQRT_TWO_PI M else logp in
  let logp :=
    if s then logp - m_log M (vv_get (values sigma) n) else logp in
  logp + Fin (-0.5) * (z_at y mu sigma n * z_at y mu sigma n).

(** [(1 / sigma[n]) * z], the quantity that [normal_log] subtracts from
    the slot of [y] and adds to the slot of [mu]. *)
Definition dmu_at (y mu sigma : argument) (n : nat) : double :=
  (Fin 1 / vv_get (values sigma) n) * z_at y mu sigma n.

(** [- (1 / sigma[n]) + (1 / sigma[n]) * z^2], the quantity that
    [normal_log] adds to the slot of [sigma]. *)
Definition dsigma_at (y mu sigma : argument) (n : nat) : double :=
  - (Fin 1 / vv_get (values sigma) n)
  + (Fin 1 / vv_get (values sigma) n)
    * (z_at y mu sigma n * z_at y mu sigma n).

(** The content of slot [k] of an accumulator of [len] slots after the
    indices below [N]: from 0, the updates [step n] of the indices that
    the view sends to [k], in index order. *)
Definition slot_fold (len N k : nat) (step : nat -> double -> double)
  : double :=
  fold_left (fun d n => if (vv_index len n =? k)%nat then step n d else d)
    (seq 0 N) (Fin 0).

(** The accumulator of an argument: no slot when constant, one slot per
    element otherwise. *)
Definition acc (constant : bool) (len N : nat)
  (step : nat -> double -> double) : list double :=
  if constant then [] else map (fun k => slot_fold len N k step) (seq 0 len).

Local Close Scope double_scope.


(** The term that [normal_log] adds to the running sum for one element,
    evaluated in exact arithmetic. *)
Definition log_term_exact (y mu sigma : R) : R :=
  -0.5 * ln (2 * PI) - ln sigma
  + -0.5 * ((y - mu) * (1 / sigma) * ((y - mu) * (1 / sigma))).

(** The same term without the constant and the logarithm of the scale:
    the term of the proportional mode when [sigma] is constant. *)
Definition propto_term_exact (y mu sigma : R) : R :=
  -0.5 * ((y - mu) * (1 / sigma) * ((y - mu) * (1 / sigma))).

(** The quantities [dmu_at] and [dsigma_at], evaluated in exact
    arithmetic. *)
Definition dmu_exact (y mu sigma : R) : R :=
  1 / sigma * ((y - mu) * (1 / sigma)).

Definition dsigma_exact (y mu sigma : R) : R :=
  - (1 / sigma)
  + 1 / sigma * ((y - mu) * (1 / sigma) * ((y - mu) * (1 / sigma))).

(** Element [n] of a view over a sequence of reals. *)
Definition rget (xs : list R) (n : nat) : R :=
  nth (vv_index (List.length xs) n) xs 0.

(** The arguments hold the finite values [ys], [mus] and [sigmas], every
    scale is strictly positive, no argument is empty and every length is 1
    or the broadcast length: the arguments that the specification calls
    valid, restricted to finite values. *)
Record finite_valid (y mu sigma : argument) (ys mus sigmas : list R)
  : Prop := {
  fv_y : values y = map Fin ys;
  fv_mu : values mu = map Fin mus;
  fv_sigma : values sigma = map Fin sigmas;
  fv_pos : forall s, In s sigmas -> 0 < s;
  fv_nonempty : (0 < max_size y mu sigma)%nat;
  fv_len_y : (stan_length y = 1 \/ stan_length y = max_size y mu sigma)%nat;
  fv_len_mu :
    (stan_length mu = 1 \/ stan_length mu = max_size y mu sigma)%nat;
  fv_len_sigma :
    (stan_length sigma = 1 \/ stan_length sigma = max_size y mu sigma)%nat
}.

(** An infinity or NaN. *)
Definition nonfinite (d : double) : Prop :=
  match d with Fin _ => False | _ => True end.

(** The test of the source that [a] is a negative integer. *)
Definition is_negative_integer (a : double) : bool :=
  (a <? Fin 0)%D && deq (dfloor a) a.

(** The magnitude of [a] when the source takes it for a negative integer,
    0 otherwise. *)
Definition negative_integer_size (a : double) : Z :=
  if is_negative_integer a
  then match a with Fin x => Zfloor (Rabs x) | _ => 0%Z end
  else 0%Z.

(** [a] is not [-infinity] and, when finite, has a magnitude that fits
    in an [int]. *)
Definition fits_int (a : double) : Prop :=
  match a with
  | Fin x => Rabs x <= 2147483647
  | NInf => False
  | PInf | NaN => True
  end.

(** A tracked scalar argument holding the finite value [x], and a
    constant one. *)
Definition tracked (x : R) : argument := Arg false (Scalar (Fin x)).

Definition constant (x : R) : argument := Arg true (Scalar (Fin x)).

(** * Properties *)

(** ** Deciding real comparisons *)

Lemma Rltb_true (a b : R) : a < b -> Rltb a b = true.
Proof. intros H; unfold Rltb; destruct (Rlt_dec a b); [reflexivity | lra]. Qed.

Lemma Rltb_false (a b : R) : ~ a < b -> Rltb a b = false.
Proof. intros H; unfold Rltb; destruct (Rlt_dec a b); [lra | reflexivity]. Qed.

Lemma Reqb_true (a b : R) : a = b -> Reqb a b = true.
Proof.
  intros H; unfold Reqb; destruct (Req_dec_T a b); [reflexivity | lra].
Qed.

Lemma Reqb_false (a b : R) : a <> b -> Reqb a b = false.
Proof.
  intros H; unfold Reqb; destruct (Req_dec_T a b); [lra | reflexivity].
Qed.

(** Evaluates the comparisons of real constants left in the goal. *)
Ltac real_cmp :=
  repeat first
    [ rewrite Rltb_true by lra
    | rewrite Rltb_false by lra
    | rewrite Reqb_true by lra
    | rewrite Reqb_false by lra ].

(** ** Powers of two *)

Lemma bpow_gt_0 (e : Z) : 0 < bpow e.
Proof. apply powerRZ_lt; lra. Qed.

Lemma bpow_plus (a b : Z) : bpow (a + b) = bpow a * bpow b.
Proof. apply powerRZ_add; lra. Qed.

Lemma bpow_IZR (e : Z) : (0 <= e)%Z -> bpow e = IZR (2 ^ e).
Proof.
  intros He; unfold bpow.
  rewrite <- (Z2Nat.id e He) at 1.
  rewrite <- pow_powerRZ, pow_IZR, Z2Nat.id by exact He; reflexivity.
Qed.

Lemma bpow_ge_1 (e : Z) : (0 <= e)%Z -> 1 <= bpow e.
Proof.
  intros He; rewrite bpow_IZR by exact He.
  apply IZR_le; pose proof (Z.pow_pos_nonneg 2 e); lia.
Qed.

Lemma bpow_le (a b : Z) : (a <= b)%Z -> bpow a <= bpow b.
Proof.
  intros H; replace b with (a + (b - a))%Z by lia; rewrite bpow_plus.
  pose proof (bpow_gt_0 a).
  assert (1 <= bpow (b - a)) by (apply bpow_ge_1; lia).
  nra.
Qed.

Lemma bpow_lt (a b : Z) : (a < b)%Z -> bpow a < bpow b.
Proof.
  intros H; replace b with (a + 1 + (b - a - 1))%Z by lia.
  rewrite !bpow_plus.
  pose proof (bpow_gt_0 a).
  assert (1 <= bpow (b - a - 1)) by (apply bpow_ge_1; lia).
  change (bpow 1) with (2 * 1); nra.
Qed.

Lemma bpow_lt_inv (a b : Z) : bpow a < bpow b -> (a < b)%Z.
Proof.
  intros H; destruct (Z_lt_le_dec a b) as [| Hle]; [assumption |].
  apply bpow_le in Hle; lra.
Qed.

Lemma bpow_1 : bpow 1 = 2.
Proof. change (bpow 1) with (2 * 1); lra. Qed.

Lemma bpow_opp (e : Z) : bpow (- e) * bpow e = 1.
Proof.
  rewrite <- bpow_plus; replace (- e + e)%Z with 0%Z by lia; reflexivity.
Qed.

(** ** The exponent search *)

Lemma fexp_from_ge (fuel : nat) (e : Z) (x : R) :
  (e <= fexp_from fuel e x)%Z.
Proof.
  revert e; induction fuel as [| k IH]; intros e; cbn; [lia |].
  destruct (Rlt_dec (Rabs x) (bpow (e + 53))); [lia |].
  specialize (IH (e + 1)%Z); lia.
Qed.

Lemma fexp_from_passed (fuel : nat) (e : Z) (x : R) (e' : Z) :
  (e <= e' < fexp_from fuel e x)%Z -> bpow (e' + 53) <= Rabs x.
Proof.
  revert e; induction fuel as [| k IH]; intros e; cbn; [lia |].
  destruct (Rlt_dec (Rabs x) (bpow (e + 53))) as [| Hn]; [lia |].
  intros H; destruct (Z.eq_dec e e') as [<- | Hne]; [lra |].
  apply (IH (e + 1)%Z); lia.
Qed.

Lemma fexp_from_found (fuel : nat) (e : Z) (x : R) :
  (fexp_from fuel e x < e + Z.of_nat fuel)%Z ->
  Rabs x < bpow (fexp_from fuel e x + 53).
Proof.
  revert e; induction fuel as [| k IH]; intros e; cbn [fexp_from]; [lia |].
  destruct (Rlt_dec (Rabs x) (bpow (e + 53))) as [| Hn]; [auto |].
  intros H; apply IH; lia.
Qed.

Lemma fexp_ge (x : R) : (-1074 <= fexp x)%Z.
Proof. apply fexp_from_ge. Qed.

Lemma fexp_passed (x : R) (e : Z) :
  (-1074 <= e < fexp x)%Z -> bpow (e + 53) <= Rabs x.
Proof. apply fexp_from_passed. Qed.

Lemma fexp_le (x : R) (e : Z) :
  (-1074 <= e)%Z -> Rabs x < bpow (e + 53) -> (fexp x <= e)%Z.
Proof.
  intros He Hx; destruct (Z_le_gt_dec (fexp x) e) as [| Hgt]; [assumption |].
  exfalso; assert (bpow (e + 53) <= Rabs x) by (apply fexp_passed; lia).
  lra.
Qed.

Lemma fexp_found (x : R) :
  (fexp x < 1126)%Z -> Rabs x < bpow (fexp x + 53).
Proof.
  intros H; apply fexp_from_found; rewrite Z2Nat.id by lia.
  unfold fexp in H; lia.
Qed.

Lemma fexp_eq (x : R) (e : Z) :
  (-1074 <= e <= 1126)%Z -> Rabs x < bpow (e + 53) ->
  (e = (-1074)%Z \/ bpow (e + 52) <= Rabs x) -> fexp x = e.
Proof.
  intros [He He'] Hx Hlow; pose proof (fexp_le x e He Hx) as Hle.
  pose proof (fexp_ge x) as Hge.
  destruct Hlow as [-> | Hlow]; [lia |].
  destruct (Z.eq_dec (fexp x) e) as [| Hne]; [assumption | exfalso].
  assert (Hf : Rabs x < bpow (fexp x + 53)) by (apply fexp_found; lia).
  assert (bpow (fexp x + 53) <= bpow (e + 52)) by (apply bpow_le; lia).
  lra.
Qed.

(** ** Rounding to the nearest integer, ties to even *)

Lemma ZnearestE_IZR (z : Z) : ZnearestE (IZR z) = z.
Proof.
  unfold ZnearestE; rewrite ZfloorZ.
  destruct (Rlt_dec (IZR z - IZR z) (1 / 2)); [reflexivity | lra].
Qed.

Lemma ZnearestE_floor (r : R) :
  (Zfloor r <= ZnearestE r <= Zfloor r + 1)%Z.
Proof.
  unfold ZnearestE.
  destruct (Rlt_dec (r - IZR (Zfloor r)) (1 / 2)); [lia |].
  destruct (Rlt_dec (1 / 2) (r - IZR (Zfloor r))); [lia |].
  destruct (Z.even (Zfloor r)); lia.
Qed.

Lemma ZnearestE_ge (r : R) (z : Z) : IZR z <= r -> (z <= ZnearestE r)%Z.
Proof.
  intros H; pose proof (ZnearestE_floor r); pose proof (Zfloor_lub z r H).
  lia.
Qed.

Lemma ZnearestE_le (r : R) (z : Z) : r <= IZR z -> (ZnearestE r <= z)%Z.
Proof.
  intros H; pose proof (ZnearestE_floor r) as [_ Hu].
  pose proof (Zfloor_bound r) as [Hl _].
  destruct (Req_dec r (IZR z)) as [-> | Hne];
    [rewrite ZnearestE_IZR; lia |].
  assert (Hlt : IZR (Zfloor r) < IZR z) by lra.
  apply lt_IZR in Hlt; lia.
Qed.

Lemma representable_abs_lt (m e : Z) :
  (Z.abs m < 2 ^ 53)%Z -> Rabs (IZR m * bpow e) < bpow (e + 53).
Proof.
  intros Hm; pose proof (bpow_gt_0 e).
  rewrite Rabs_mult, (Rabs_pos_eq (bpow e)) by lra.
  rewrite <- abs_IZR, bpow_plus, Rmult_comm, (bpow_IZR 53) by lia.
  apply Rmult_lt_compat_l; [assumption |].
  apply IZR_lt; exact Hm.
Qed.

Lemma scaled_integer (m e e0 : Z) :
  (e0 <= e)%Z ->
  IZR m * bpow e * bpow (- e0) = IZR (m * 2 ^ (e - e0)).
Proof.
  intros H; rewrite Rmult_assoc, <- bpow_plus, mult_IZR.
  rewrite <- bpow_IZR by lia; f_equal; f_equal; lia.
Qed.

Lemma rnd_R_id (f : R) : representable f -> rnd_R f = f.
Proof.
  intros (m & e & -> & Hm & He).
  pose proof (fexp_le _ e He (representable_abs_lt m e Hm)) as Hle.
  unfold rnd_R.
  rewrite (scaled_integer m e _ Hle), ZnearestE_IZR.
  rewrite <- (scaled_integer m e _ Hle).
  rewrite Rmult_assoc, bpow_opp; lra.
Qed.

Lemma rnd_R_le (x a : R) : representable a -> x <= a -> rnd_R x <= a.
Proof.
  intros (m & ea & -> & Hm & Hea) Hx.
  pose proof (bpow_gt_0 (fexp x)) as Hp.
  pose proof (bpow_gt_0 (- fexp x)) as Hq.
  pose proof (bpow_opp (fexp x)) as Ho.
  unfold rnd_R.
  destruct (Z_le_gt_dec (fexp x) ea) as [Hle | Hgt].
  - assert (Hr : x * bpow (- fexp x) <= IZR (m * 2 ^ (ea - fexp x))).
    { rewrite <- (scaled_integer m ea _ Hle).
      apply Rmult_le_compat_r; lra. }
    apply ZnearestE_le, IZR_le in Hr.
    apply Rle_trans with (IZR (m * 2 ^ (ea - fexp x)) * bpow (fexp x)).
    + apply Rmult_le_compat_r; lra.
    + rewrite <- (scaled_integer m ea _ Hle).
      rewrite Rmult_assoc, bpow_opp; lra.
  - assert (Hpass : bpow (fexp x - 1 + 53) <= Rabs x)
      by (apply fexp_passed; lia).
    pose proof (representable_abs_lt m ea Hm) as Ha.
    assert (Hb : bpow (ea + 53) <= bpow (fexp x - 1 + 53))
      by (apply bpow_le; lia).
    assert (Hax : Rabs (IZR m * bpow ea) < Rabs x) by lra.
    assert (Hneg : x < 0).
    { destruct (Rlt_dec x 0) as [| Hn]; [assumption | exfalso].
      rewrite (Rabs_pos_eq x) in Hax by lra.
      pose proof (Rle_abs (IZR m * bpow ea)); lra. }
    rewrite (Rabs_left x) in Hpass by exact Hneg.
    assert (Hr : x * bpow (- fexp x) <= IZR (- 2 ^ 52)).
    { rewrite opp_IZR, <- bpow_IZR by lia.
      replace (fexp x - 1 + 53)%Z with (52 + fexp x)%Z in Hpass by lia.
      rewrite bpow_plus in Hpass.
      assert (bpow 52 * bpow (fexp x) * bpow (- fexp x)
              <= - x * bpow (- fexp x))
        by (apply Rmult_le_compat_r; lra).
      assert (bpow 52 * bpow (fexp x) * bpow (- fexp x) = bpow 52)
        by (rewrite Rmult_assoc, (Rmult_comm (bpow (fexp x))), Ho; lra).
      lra. }
    apply ZnearestE_le, IZR_le in Hr.
    apply Rle_trans with (IZR (- 2 ^ 52) * bpow (fexp x)).
    + apply Rmult_le_compat_r; lra.
    + rewrite opp_IZR, <- bpow_IZR by lia.
      assert (Hb' : bpow (ea + 53) <= bpow 52 * bpow (fexp x))
        by (rewrite <- bpow_plus; apply bpow_le; lia).
      pose proof (Rabs_def2 _ _ Ha) as [_ Hlow].
      lra.
Qed.

Lemma rnd_R_ge (x a : R) : representable a -> a <= x -> a <= rnd_R x.
Proof.
  intros (m & ea & -> & Hm & Hea) Hx.
  pose proof (bpow_gt_0 (fexp x)) as Hp.
  pose proof (bpow_gt_0 (- fexp x)) as Hq.
  pose proof (bpow_opp (fexp x)) as Ho.
  unfold rnd_R.
  destruct (Z_le_gt_dec (fexp x) ea) as [Hle | Hgt].
  - assert (Hr : IZR (m * 2 ^ (ea - fexp x)) <= x * bpow (- fexp x)).
    { rewrite <- (scaled_integer m ea _ Hle).
      apply Rmult_le_compat_r; lra. }
    apply ZnearestE_ge, IZR_le in Hr.
    apply Rle_trans with (IZR (m * 2 ^ (ea - fexp x)) * bpow (fexp x)).
    + rewrite <- (scaled_integer m ea _ Hle).
      rewrite Rmult_assoc, bpow_opp; lra.
    + apply Rmult_le_compat_r; lra.
  - assert (Hpass : bpow (fexp x - 1 + 53) <= Rabs x)
      by (apply fexp_passed; lia).
    pose proof (representable_abs_lt m ea Hm) as Ha.
    assert (Hb : bpow (ea + 53) <= bpow (fexp x - 1 + 53))
      by (apply bpow_le; lia).
    assert (Hax : Rabs (IZR m * bpow ea) < Rabs x) by lra.
    assert (Hpos : 0 < x).
    { destruct (Rlt_dec 0 x) as [| Hn]; [assumption | exfalso].
      rewrite (Rabs_left1 x) in Hax by lra.
      pose proof (Rle_abs (- (IZR m * bpow ea))) as H.
      rewrite Rabs_Ropp in H; lra. }
    rewrite (Rabs_pos_eq x) in Hpass by lra.
    assert (Hr : IZR (2 ^ 52) <= x * bpow (- fexp x)).
    { rewrite <- bpow_IZR by lia.
      replace (fexp x - 1 + 53)%Z with (52 + fexp x)%Z in Hpass by lia.
      rewrite bpow_plus in Hpass.
      assert (bpow 52 * bpow (fexp x) * bpow (- fexp x)
              <= x * bpow (- fexp x))
        by (apply Rmult_le_compat_r; lra).
      assert (bpow 52 * bpow (fexp x) * bpow (- fexp x) = bpow 52)
        by (rewrite Rmult_assoc, (Rmult_comm (bpow (fexp x))), Ho; lra).
      lra. }
    apply ZnearestE_ge, IZR_le in Hr.
    apply Rle_trans with (IZR (2 ^ 52) * bpow (fexp x)).
    + rewrite <- bpow_IZR by lia.
      assert (Hb' : bpow (ea + 53) <= bpow 52 * bpow (fexp x))
        by (rewrite <- bpow_plus; apply bpow_le; lia).
      pose proof (Rabs_def2 _ _ Ha) as [Hup _].
      lra.
    + apply Rmult_le_compat_r; lra.
Qed.

Lemma fexp_from_le (fuel : nat) (e : Z) (x : R) :
  (fexp_from fuel e x <= e + Z.of_nat fuel)%Z.
Proof.
  revert e; induction fuel as [| k IH]; intros e; cbn [fexp_from]; [lia |].
  destruct (Rlt_dec (Rabs x) (bpow (e + 53))); [lia |].
  specialize (IH (e + 1)%Z); lia.
Qed.

Lemma fexp_cap (x : R) : (fexp x <= 1126)%Z.
Proof.
  unfold fexp.
  pose proof (fexp_from_le (Z.to_nat 2200) (-1074) x) as H.
  rewrite Z2Nat.id in H by lia; lia.
Qed.

Lemma representable_0 : representable 0.
Proof. exists 0%Z, 0%Z; split; [lra | split; [reflexivity | lia]]. Qed.

(** The rounded value belongs to the format. *)
Lemma rnd_R_representable (x : R) :
  Rabs (rnd_R x) < bpow 1024 -> representable (rnd_R x).
Proof.
  intros Hfin.
  pose proof (bpow_gt_0 (fexp x)) as Hp.
  pose proof (bpow_gt_0 (- fexp x)) as Hq.
  pose proof (fexp_ge x) as Hge.
  pose proof (fexp_cap x) as Hcap.
  set (n := ZnearestE (x * bpow (- fexp x))).
  assert (E : rnd_R x = IZR n * bpow (fexp x)) by reflexivity.
  destruct (Z.eq_dec (fexp x) 1126) as [Hc | Hc].
  - (* beyond the search: only 0 stays below the overflow threshold *)
    assert (Hn : n = 0%Z).
    { rewrite E, Rabs_mult, (Rabs_pos_eq (bpow _)), <- abs_IZR in Hfin
        by lra.
      assert (bpow 1024 <= bpow (fexp x)) by (apply bpow_le; lia).
      assert (IZR (Z.abs n) < 1).
      { destruct (Rlt_dec (IZR (Z.abs n)) 1) as [| Hn]; [assumption |].
        exfalso; nra. }
      assert (Z.abs n < 1)%Z by (apply lt_IZR; assumption).
      lia. }
    rewrite E, Hn, Rmult_0_l; apply representable_0.
  - assert (Hf : Rabs x < bpow (fexp x + 53)) by (apply fexp_found; lia).
    rewrite bpow_plus, (bpow_IZR 53) in Hf by lia.
    assert (Hr : Rabs (x * bpow (- fexp x)) < IZR (2 ^ 53)).
    { rewrite Rabs_mult, (Rabs_pos_eq (bpow _)) by lra.
      pose proof (bpow_opp (fexp x)).
      assert (Rabs x * bpow (- fexp x)
              < bpow (fexp x) * IZR (2 ^ 53) * bpow (- fexp x))
        by (apply Rmult_lt_compat_r; lra).
      replace (bpow (fexp x) * IZR (2 ^ 53) * bpow (- fexp x))
        with (IZR (2 ^ 53) * (bpow (- fexp x) * bpow (fexp x))) in H0
        by ring.
      rewrite H in H0; lra. }
    apply Rabs_def2 in Hr; destruct Hr as [Hr1 Hr2].
    assert (Hn1 : (n <= 2 ^ 53)%Z) by (apply ZnearestE_le; lra).
    assert (Hn2 : (- 2 ^ 53 <= n)%Z)
      by (apply ZnearestE_ge; rewrite opp_IZR; lra).
    rewrite E.
    destruct (Z.eq_dec n (2 ^ 53)) as [-> | N1];
      [| destruct (Z.eq_dec n (- 2 ^ 53)) as [-> | N2]].
    + exists (2 ^ 52)%Z, (fexp x + 1)%Z; split; [| split; [reflexivity | lia]].
      rewrite bpow_plus, bpow_1.
      change (2 ^ 53)%Z with (2 ^ 52 * 2)%Z; rewrite mult_IZR; ring.
    + exists (- 2 ^ 52)%Z, (fexp x + 1)%Z;
        split; [| split; [reflexivity | lia]].
      rewrite bpow_plus, bpow_1.
      change (- 2 ^ 53)%Z with (- 2 ^ 52 * 2)%Z; rewrite mult_IZR; ring.
    + exists n, (fexp x); split; [reflexivity | split; lia].
Qed.

Lemma rnd_id (f : R) :
  representable f -> Rabs f < bpow 1024 -> rnd f = Fin f.
Proof.
  intros Hr Hf; unfold rnd; rewrite (rnd_R_id f Hr).
  rewrite Rltb_true by exact Hf; reflexivity.
Qed.

Lemma rnd_fin (x f : R) :
  rnd x = Fin f -> f = rnd_R x /\ Rabs f < bpow 1024 /\ representable f.
Proof.
  unfold rnd, Rltb.
  destruct (Rlt_dec (Rabs (rnd_R x)) (bpow 1024)) as [H |];
    [| destruct (Rlt_dec 0 x); discriminate].
  intros [= <-]; repeat split; [exact H |].
  apply rnd_R_representable, H.
Qed.

(** Rounding a rounded value changes nothing. *)
Lemma rnd_idem (x f : R) : rnd x = Fin f -> rnd f = Fin f.
Proof. intros H; apply rnd_fin in H as (_ & Hb & Hr); apply rnd_id; auto. Qed.

Lemma rnd_not_nan (x : R) : rnd x <> NaN.
Proof.
  unfold rnd; destruct (Rltb _ _); [discriminate |].
  destruct (Rltb 0 x); discriminate.
Qed.

(** Rounding does not cross a member of the format. *)
Lemma rnd_between (a b x : R) :
  representable a -> representable b ->
  - bpow 1024 < a -> b < bpow 1024 -> a <= x <= b ->
  exists f, rnd x = Fin f /\ a <= f <= b.
Proof.
  intros Ha Hb La Lb [Hax Hxb].
  pose proof (rnd_R_ge x a Ha Hax); pose proof (rnd_R_le x b Hb Hxb).
  exists (rnd_R x); split; [| lra].
  unfold rnd; rewrite Rltb_true; [reflexivity |].
  apply Rabs_def1; lra.
Qed.

Lemma representable_bpow (e : Z) : (-1074 <= e)%Z -> representable (bpow e).
Proof.
  intros H; exists 1%Z, e; split; [lra | split; [reflexivity | lia]].
Qed.

Lemma rnd_overflow (x : R) : bpow 1024 <= x -> rnd x = PInf.
Proof.
  intros H.
  pose proof (rnd_R_ge x _ (representable_bpow 1024 ltac:(lia)) H) as Hge.
  pose proof (bpow_gt_0 1024).
  unfold rnd; rewrite Rltb_false, Rltb_true; [reflexivity | lra |].
  rewrite Rabs_pos_eq; lra.
Qed.

Lemma representable_opp (f : R) : representable f -> representable (- f).
Proof.
  intros (m & e & -> & Hm & He); exists (- m)%Z, e.
  split; [rewrite opp_IZR; ring | split; lia].
Qed.

Lemma rnd_underflow_neg (x : R) : x <= - bpow 1024 -> rnd x = NInf.
Proof.
  intros H.
  pose proof (rnd_R_le x _ (representable_opp _
                (representable_bpow 1024 ltac:(lia))) H) as Hle.
  pose proof (bpow_gt_0 1024).
  unfold rnd; rewrite Rltb_false, Rltb_false; [reflexivity | lra |].
  rewrite Rabs_left; lra.
Qed.

(** ** Members of the format *)

Lemma representable_dyadic (m e : Z) :
  (Z.abs m < 2 ^ 53)%Z -> (-1074 <= e)%Z -> representable (IZR m * bpow e).
Proof. intros Hm He; exists m, e; auto. Qed.

Lemma dyadic_lt_bpow_1024 (m e : Z) :
  (Z.abs m < 2 ^ 53)%Z -> (e <= 971)%Z -> Rabs (IZR m * bpow e) < bpow 1024.
Proof.
  intros Hm He.
  apply Rlt_le_trans with (1 := representable_abs_lt m e Hm).
  apply bpow_le; lia.
Qed.

(** A small integer multiple of a power of two is a double. *)
Lemma rnd_dyadic (m e : Z) :
  (Z.abs m < 2 ^ 53)%Z -> (-1074 <= e <= 971)%Z ->
  rnd (IZR m * bpow e) = Fin (IZR m * bpow e).
Proof.
  intros Hm [He1 He2]; apply rnd_id;
    [apply representable_dyadic | apply dyadic_lt_bpow_1024]; assumption.
Qed.

Lemma rnd_IZR (z : Z) : (Z.abs z < 2 ^ 53)%Z -> rnd (IZR z) = Fin (IZR z).
Proof.
  intros Hz; pose proof (rnd_dyadic z 0 Hz ltac:(lia)) as H.
  change (bpow 0) with 1 in H; rewrite Rmult_1_r in H; exact H.
Qed.

Lemma representable_IZR (z : Z) :
  (Z.abs z < 2 ^ 53)%Z -> representable (IZR z).
Proof.
  intros Hz; replace (IZR z) with (IZR z * bpow 0)
    by (change (bpow 0) with 1; lra).
  apply representable_dyadic; [exact Hz | lia].
Qed.

Lemma bpow_neg (e : Z) : bpow (- e) = / bpow e.
Proof.
  pose proof (bpow_opp e); pose proof (bpow_gt_0 e).
  apply Rmult_eq_reg_r with (bpow e); [| lra].
  rewrite Rinv_l by lra; exact H.
Qed.

Lemma IZR_lt_bpow_1024 (z : Z) :
  (Z.abs z < 2 ^ 53)%Z -> - bpow 1024 < IZR z < bpow 1024.
Proof.
  intros Hz; pose proof (dyadic_lt_bpow_1024 z 0 Hz ltac:(lia)) as H.
  change (bpow 0) with 1 in H; rewrite Rmult_1_r in H.
  apply Rabs_def2 in H; lra.
Qed.

(** Rounding between two integers. *)
Lemma rnd_between_IZR (a b : Z) (x : R) :
  (Z.abs a < 2 ^ 53)%Z -> (Z.abs b < 2 ^ 53)%Z ->
  IZR a <= x <= IZR b ->
  exists f, rnd x = Fin f /\ IZR a <= f <= IZR b.
Proof.
  intros Ha Hb Hx.
  pose proof (IZR_lt_bpow_1024 a Ha); pose proof (IZR_lt_bpow_1024 b Hb).
  apply rnd_between; auto using representable_IZR; lra.
Qed.

(** ** Arithmetic on doubles *)

Lemma dadd_fin (a b : R) : (Fin a + Fin b)%D = rnd (a + b).
Proof. reflexivity. Qed.

Lemma dsub_fin (a b : R) : (Fin a - Fin b)%D = rnd (a - b).
Proof. reflexivity. Qed.

Lemma dmul_fin (a b : R) : (Fin a * Fin b)%D = rnd (a * b).
Proof. reflexivity. Qed.

Lemma ddiv_fin (a b : R) : b <> 0 -> (Fin a / Fin b)%D = rnd (a / b).
Proof. intros H; unfold ddiv; rewrite Reqb_false by exact H; reflexivity. Qed.

Lemma dadd_nan_r (a : double) : (a + NaN)%D = NaN.
Proof. destruct a; reflexivity. Qed.

Lemma dsub_nan_r (a : double) : (a - NaN)%D = NaN.
Proof. destruct a; reflexivity. Qed.

Lemma dmul_nan_r (a : double) : (a * NaN)%D = NaN.
Proof. destruct a; reflexivity. Qed.

Lemma rnd_0 : rnd 0 = Fin 0.
Proof. apply (rnd_IZR 0); reflexivity. Qed.

Lemma rnd_1 : rnd 1 = Fin 1.
Proof. apply (rnd_IZR 1); reflexivity. Qed.

(** A sum, a product or a difference is a double already: adding 0 or
    multiplying by 1 returns it. *)
Lemma rnd_add_0 (x : R) : (Fin 0 + rnd x)%D = rnd x.
Proof.
  destruct (rnd x) as [f | | |] eqn:E; try reflexivity.
  cbn; rewrite Rplus_0_l; exact (rnd_idem x f E).
Qed.

Lemma rnd_mul_1 (x : R) : (Fin 1 * rnd x)%D = rnd x.
Proof.
  destruct (rnd x) as [f | | |] eqn:E; try reflexivity.
  - cbn; rewrite Rmult_1_l; exact (rnd_idem x f E).
  - cbn; unfold inf_times; rewrite Rltb_true by lra; reflexivity.
  - cbn; unfold inf_times; rewrite Rltb_true by lra; reflexivity.
Qed.

Lemma inf_times_not_fin (p : bool) (x r : R) : inf_times p x <> Fin r.
Proof.
  unfold inf_times; destruct (Rltb 0 x), (Rltb x 0), p; discriminate.
Qed.

Lemma dadd_0_l (a b : double) : (Fin 0 + (a + b))%D = (a + b)%D.
Proof.
  destruct a as [x | | |], b as [y | | |]; try reflexivity.
  apply rnd_add_0.
Qed.

Lemma dmul_1_special (d : double) :
  (forall r, d <> Fin r) -> (Fin 1 * d)%D = d.
Proof.
  destruct d as [r | | |]; intros H; try reflexivity;
    [exfalso; exact (H r eq_refl) | ..];
    cbn; unfold inf_times; rewrite Rltb_true by lra; reflexivity.
Qed.

Lemma dmul_1_l (a b : double) : (Fin 1 * (a * b))%D = (a * b)%D.
Proof.
  destruct a as [x | | |], b as [y | | |]; try reflexivity;
    try apply rnd_mul_1;
    apply dmul_1_special; intros r; cbn; try discriminate;
    apply inf_times_not_fin.
Qed.

(** ** The error monad and the checks *)

Lemma check_all_ok (ok : double -> bool) (f r : string) (xs : list double) :
  forallb ok xs = true -> check_all ok f r xs = Ok tt.
Proof.
  induction xs as [| x xs IH]; simpl; [reflexivity |].
  intros H; apply andb_prop in H as [Hx Hxs].
  rewrite Hx; auto.
Qed.

Lemma check_all_err (ok : double -> bool) (f r : string) (xs : list double) :
  forallb ok xs = false ->
  exists v, check_all ok f r xs = Err (DomainError f r v)
            /\ In v xs /\ ok v = false.
Proof.
  induction xs as [| x xs IH]; simpl; [discriminate |].
  destruct (ok x) eqn:Hx; simpl.
  - intros H; destruct (IH H) as (v & Hv & Hin & Hok).
    exists v; auto.
  - intros _; exists x; auto.
Qed.

Lemma check_all_cases (ok : double -> bool) (f r : string) (xs : list double) :
  check_all ok f r xs = Ok tt
  \/ exists v, check_all ok f r xs = Err (DomainError f r v).
Proof.
  destruct (forallb ok xs) eqn:H.
  - left; apply check_all_ok, H.
  - right; destruct (check_all_err ok f r xs H) as (v & Hv & _); eauto.
Qed.

(** ** Zero-length arguments *)

Lemma any_empty_true (y mu sigma : argument) :
  (stan_length y = 0 \/ stan_length mu = 0 \/ stan_length sigma = 0)%nat ->
  any_empty y mu sigma = true.
Proof.
  unfold any_empty; intros [H | [H | H]]; rewrite H; simpl;
    rewrite ?andb_false_r; reflexivity.
Qed.

Lemma nonempty_any_empty (y mu sigma : argument) :
  (stan_length y <> 0 -> stan_length mu <> 0 -> stan_length sigma <> 0 ->
   any_empty y mu sigma = false)%nat.
Proof.
  intros Hy Hm Hs; unfold any_empty.
  apply Nat.eqb_neq in Hy, Hm, Hs; rewrite Hy, Hm, Hs; reflexivity.
Qed.

(** C6.  When some argument has length 0, every evaluator returns the
    identity value of its operation, as a plain number with no derivative
    attached: 0 for [normal_log] (in either mode), [normal_cdf_log] and
    [normal_ccdf_log], and 1 for [normal_cdf]. *)
Theorem zero_length_identity (M : libm) (propto : bool)
  (y mu sigma : argument) :
  (stan_length y = 0 \/ stan_length mu = 0 \/ stan_length sigma = 0)%nat ->
  normal_log M propto y mu sigma = Ok (plain (Fin 0))
  /\ normal_cdf M y mu sigma = Ok (plain (Fin 1))
  /\ normal_cdf_log M y mu sigma = Ok (plain (Fin 0))
  /\ normal_ccdf_log M y mu sigma = Ok (plain (Fin 0)).
Proof.
  intros H; apply any_empty_true in H.
  unfold normal_log, normal_cdf, normal_cdf_log, normal_ccdf_log.
  rewrite H; repeat split.
Qed.

Lemma zero_length_identity_witness :
  normal_log cr_libm false (Arg true (Vector [])) (Arg false (Scalar (Fin 0)))
    (Arg false (Scalar (Fin 1))) = Ok (plain (Fin 0))
  /\ normal_cdf cr_libm (Arg true (Vector [])) (Arg false (Scalar (Fin 0)))
       (Arg false (Scalar (Fin 1))) = Ok (plain (Fin 1)).
Proof.
  destruct (zero_length_identity cr_libm false (Arg true (Vector []))
              (Arg false (Scalar (Fin 0))) (Arg false (Scalar (Fin 1))))
    as (Hlog & Hcdf & _).
  - left; reflexivity.
  - split; [exact Hlog | exact Hcdf].
Defined.

(** C10.  The zero-length test comes before every validation call: when
    some argument has length 0, [normal_log] returns 0 and [normal_cdf]
    returns 1 even if the validation calls, run on the same arguments, fail,
    and neither function ever returns an error. *)
Theorem zero_length_precedes_validation (M : libm)
  (propto : bool) (y mu sigma : argument) :
  (stan_length y = 0 \/ stan_length mu = 0 \/ stan_length sigma = 0)%nat ->
  (forall e, normal_log_checks y mu sigma = Err e ->
             normal_log M propto y mu sigma = Ok (plain (Fin 0)))
  /\ (forall e, normal_cdf_checks "stan::prob::normal_cdf(%1%)" y mu sigma
                = Err e ->
                normal_cdf M y mu sigma = Ok (plain (Fin 1)))
  /\ (forall e, normal_log M propto y mu sigma <> Err e
                /\ normal_cdf M y mu sigma <> Err e).
Proof.
  intros H; apply any_empty_true in H.
  unfold normal_log, normal_cdf; rewrite H.
  repeat split; intros; discriminate.
Qed.

(** An empty [y] with a NaN scale and location and scale vectors of
    different lengths: the validation fails, the evaluators do not. *)
Lemma zero_length_precedes_validation_witness :
  normal_log_checks (Arg true (Vector []))
    (Arg true (Vector [Fin 0; Fin 0]))
    (Arg true (Vector [NaN; Fin 1; Fin 1]))
  = Err (DomainError "stan::prob::normal_log(%1%)" "Scale parameter" NaN)
  /\ normal_log cr_libm false (Arg true (Vector []))
       (Arg true (Vector [Fin 0; Fin 0]))
       (Arg true (Vector [NaN; Fin 1; Fin 1])) = Ok (plain (Fin 0))
  /\ normal_cdf cr_libm (Arg true (Vector []))
       (Arg true (Vector [Fin 0; Fin 0]))
       (Arg true (Vector [NaN; Fin 1; Fin 1])) = Ok (plain (Fin 1)).
Proof.
  assert (Hchk : normal_log_checks (Arg true (Vector []))
                   (Arg true (Vector [Fin 0; Fin 0]))
                   (Arg true (Vector [NaN; Fin 1; Fin 1]))
                 = Err (DomainError "stan::prob::normal_log(%1%)"
                          "Scale parameter" NaN))
    by reflexivity.
  assert (Hcdf : normal_cdf_checks "stan::prob::normal_cdf(%1%)"
                   (Arg true (Vector []))
                   (Arg true (Vector [Fin 0; Fin 0]))
                   (Arg true (Vector [NaN; Fin 1; Fin 1]))
                 = Err (DomainError "stan::prob::normal_cdf(%1%)"
                          "Scale parameter" NaN))
    by reflexivity.
  destruct (zero_length_precedes_validation cr_libm false (Arg true (Vector []))
              (Arg true (Vector [Fin 0; Fin 0]))
              (Arg true (Vector [NaN; Fin 1; Fin 1])))
    as (Hlog & Hc & _).
  - left; reflexivity.
  - split; [exact Hchk |].
    split; [exact (Hlog _ Hchk) | exact (Hc _ Hcdf)].
Defined.

(** ** The sampler *)

Lemma check_scalar (ok : double -> bool) (f r : string) (c : bool)
  (x : double) :
  check_all ok f r (values (Arg c (Scalar x)))
  = if ok x then Ok tt else Err (DomainError f r x).
Proof. simpl; destruct (ok x); reflexivity. Qed.

(** C9.  [normal_rng] checks that [mu] is finite and not NaN and that
    [sigma] is strictly positive and not NaN.  When a check fails the call
    returns a [DomainError] and the random source is left in the state it
    had: nothing was drawn.  When all pass, one standard normal deviate is
    drawn and the call returns [mu + sigma * draw]. *)
Theorem normal_rng_contract (RNG : Type) (draw : RNG -> double * RNG)
  (mu sigma : double) (rng : RNG) :
  (isfinite mu && negb (isnan mu)
   && (sigma >? Fin 0)%D && negb (isnan sigma) = false ->
   exists role v,
     normal_rng RNG draw mu sigma rng
     = (Err (DomainError "stan::prob::normal_rng(%1%)" role v), rng))
  /\ (isfinite mu && negb (isnan mu)
      && (sigma >? Fin 0)%D && negb (isnan sigma) = true ->
      normal_rng RNG draw mu sigma rng
      = (Ok (mu + sigma * fst (draw rng))%D, snd (draw rng))).
Proof.
  unfold normal_rng, normal_rng_checks, check_finite, check_not_nan,
    check_positive.
  rewrite !check_scalar.
  destruct (isfinite mu) eqn:Hf; cbn [bind andb negb].
  2: { split; [eauto | discriminate]. }
  destruct (isnan mu) eqn:Hn; cbn [bind andb negb].
  1: { split; [eauto | discriminate]. }
  destruct (sigma >? Fin 0)%D eqn:Hp; cbn [bind andb negb].
  2: { split; [eauto | discriminate]. }
  destruct (isnan sigma) eqn:Hs; cbn [bind andb negb].
  1: { split; [eauto | discriminate]. }
  split; [discriminate | intros _].
  destruct (draw rng); reflexivity.
Qed.

Lemma normal_rng_contract_witness :
  normal_rng (list double) replay (Fin 1) (Fin 2) [Fin 3; Fin 4]
  = (Ok (Fin 7), [Fin 4])
  /\ exists role v,
       normal_rng (list double) replay PInf (Fin 2) [Fin 3; Fin 4]
       = (Err (DomainError "stan::prob::normal_rng(%1%)" role v),
          [Fin 3; Fin 4]).
Proof.
  split.
  - destruct (normal_rng_contract (list double) replay (Fin 1) (Fin 2)
                [Fin 3; Fin 4]) as [_ H].
    rewrite H.
    + cbn [replay hd tl fst snd]; rewrite dmul_fin.
      replace (2 * 3) with 6 by lra; rewrite (rnd_IZR 6) by reflexivity.
      rewrite dadd_fin; replace (1 + 6) with 7 by lra.
      rewrite (rnd_IZR 7) by reflexivity; reflexivity.
    + simpl; unfold dgt, dlt; real_cmp; reflexivity.
  - destruct (normal_rng_contract (list double) replay PInf (Fin 2)
                [Fin 3; Fin 4]) as [H _].
    apply H; reflexivity.
Defined.

(** ** Errors of [normal_log] *)

Lemma check_consistent_size_ok (f r : string) (a : argument) (N : nat) :
  (stan_length a = 1 \/ stan_length a = N)%nat ->
  check_consistent_size f a r N = Ok tt.
Proof.
  intros H; unfold check_consistent_size.
  destruct H as [H | H]; rewrite H, ?Nat.eqb_refl, ?orb_true_r; reflexivity.
Qed.

Lemma check_consistent_size_err (f r : string) (a : argument) (N : nat) :
  (stan_length a <> 1 -> stan_length a <> N ->
   check_consistent_size f a r N
   = Err (ShapeMismatch f r (stan_length a) N))%nat.
Proof.
  intros H1 HN; unfold check_consistent_size.
  apply Nat.eqb_neq in H1, HN; rewrite H1, HN; reflexivity.
Qed.

Lemma check_consistent_size_cases (f r : string) (a : argument) (N : nat) :
  ((stan_length a = 1 \/ stan_length a = N)
   /\ check_consistent_size f a r N = Ok tt)%nat
  \/ ((stan_length a <> 1 /\ stan_length a <> N)
      /\ check_consistent_size f a r N
         = Err (ShapeMismatch f r (stan_length a) N))%nat.
Proof.
  destruct (Nat.eq_dec (stan_length a) 1) as [H1 | H1].
  - left; split; [auto | apply check_consistent_size_ok; auto].
  - destruct (Nat.eq_dec (stan_length a) N) as [HN | HN].
    + left; split; [auto | apply check_consistent_size_ok; auto].
    + right; split; [auto | apply check_consistent_size_err; auto].
Qed.

Lemma check_consistent_sizes_err (f ra rb rc : string) (a b c : argument) :
  incompatible a b \/ incompatible a c \/ incompatible b c ->
  exists role found expected,
    check_consistent_sizes f a b c ra rb rc
    = Err (ShapeMismatch f role found expected).
Proof.
  intros H; unfold check_consistent_sizes, incompatible, max_size in *.
  set (N := Nat.max _ _) in *.
  destruct (check_consistent_size_cases f ra a N) as [[Ha ->] | [_ ->]];
    cbn [bind]; [| eauto].
  destruct (check_consistent_size_cases f rb b N) as [[Hb ->] | [_ ->]];
    cbn [bind]; [| eauto].
  destruct (check_consistent_size_cases f rc c N) as [[Hc ->] | [_ ->]];
    cbn [bind]; [| eauto].
  exfalso; subst N; lia.
Qed.

Lemma check_consistent_sizes_ok (f ra rb rc : string) (a b c : argument) :
  let N := max_size a b c in
  (stan_length a = 1 \/ stan_length a = N)%nat ->
  (stan_length b = 1 \/ stan_length b = N)%nat ->
  (stan_length c = 1 \/ stan_length c = N)%nat ->
  check_consistent_sizes f a b c ra rb rc = Ok tt.
Proof.
  intros N Ha Hb Hc; unfold check_consistent_sizes.
  fold N; rewrite !check_consistent_size_ok by assumption; reflexivity.
Qed.

(** The numeric checks of [normal_log] fail with a [DomainError] as soon
    as some scale is not strictly positive, whatever the other values and
    the lengths are. *)
Lemma normal_log_checks_scale (y mu sigma : argument) :
  (exists s, In s (values sigma) /\ (s >? Fin 0)%D = false) ->
  exists role v,
    normal_log_checks y mu sigma
    = Err (DomainError "stan::prob::normal_log(%1%)" role v).
Proof.
  intros (s & Hin & Hs).
  unfold normal_log_checks, check_not_nan, check_finite, check_positive.
  match goal with
  | |- context [check_all ?ok ?f ?r (values y)] =>
      destruct (check_all_cases ok f r (values y)) as [-> | [v ->]]
  end; cbn [bind]; [| eauto].
  match goal with
  | |- context [check_all ?ok ?f ?r (values mu)] =>
      destruct (check_all_cases ok f r (values mu)) as [-> | [v ->]]
  end; cbn [bind]; [| eauto].
  match goal with
  | |- context [check_all ?ok ?f ?r (values sigma)] =>
      destruct (check_all_err ok f r (values sigma)) as (v & -> & _)
  end; cbn [bind]; [| eauto].
  apply not_true_is_false; intros Hall.
  rewrite forallb_forall in Hall.
  specialize (Hall s Hin); cbn beta in Hall; congruence.
Qed.

Lemma normal_log_checks_numeric_ok (y mu sigma : argument) :
  numeric_ok y mu sigma = true ->
  normal_log_checks y mu sigma
  = check_consistent_sizes "stan::prob::normal_log(%1%)" y mu sigma
      "Random variable" "Location parameter" "Scale parameter".
Proof.
  unfold numeric_ok; intros H.
  apply andb_prop in H as [H Hs]; apply andb_prop in H as [Hy Hm].
  unfold normal_log_checks, check_not_nan, check_finite, check_positive.
  rewrite !check_all_ok by assumption; reflexivity.
Qed.

Lemma normal_log_nonempty (M : libm) (propto : bool) (y mu sigma : argument) :
  (stan_length y <> 0 -> stan_length mu <> 0 -> stan_length sigma <> 0 ->
   normal_log M propto y mu sigma
   = bind (normal_log_checks y mu sigma)
       (fun _ =>
          if negb (include_summand propto
                     [is_constant_struct y; is_constant_struct mu;
                      is_constant_struct sigma])
          then Ok (plain (Fin 0))
          else Ok (normal_log_loop M propto y mu sigma
                     (Ret (Fin 0) (partials_of y) (partials_of mu)
                        (partials_of sigma)))))%nat.
Proof.
  intros Hy Hm Hs; unfold normal_log.
  rewrite nonempty_any_empty by assumption; reflexivity.
Qed.

(** C7, as amended.  On arguments none of which is empty, [normal_log]
    fails with a [DomainError] when some scale is not strictly positive,
    whatever the lengths are; it fails with a [ShapeMismatch] when two
    arguments have different lengths both greater than 1 and the values
    pass the numeric checks, which run first.  The outcome is the error
    alone. *)
Theorem normal_log_errors (M : libm) (propto : bool) (y mu sigma : argument) :
  (stan_length y <> 0 -> stan_length mu <> 0 -> stan_length sigma <> 0 ->
   ((exists s, In s (values sigma) /\ (s >? Fin 0)%D = false) ->
    exists role v,
      normal_log M propto y mu sigma
      = Err (DomainError "stan::prob::normal_log(%1%)" role v))
   /\ (numeric_ok y mu sigma = true ->
       incompatible y mu \/ incompatible y sigma \/ incompatible mu sigma ->
       exists role found expected,
         normal_log M propto y mu sigma
         = Err (ShapeMismatch "stan::prob::normal_log(%1%)"
                  role found expected)))%nat.
Proof.
  intros Hy Hm Hs.
  rewrite (normal_log_nonempty M propto y mu sigma Hy Hm Hs).
  split.
  - intros Hscale.
    destruct (normal_log_checks_scale y mu sigma Hscale) as (role & v & ->).
    cbn [bind]; eauto.
  - intros Hnum Hinc.
    rewrite (normal_log_checks_numeric_ok y mu sigma Hnum).
    destruct (check_consistent_sizes_err "stan::prob::normal_log(%1%)"
                "Random variable" "Location parameter" "Scale parameter"
                y mu sigma Hinc) as (role & a & b & ->).
    cbn [bind]; eauto.
Qed.

Lemma normal_log_errors_witness :
  (exists role v,
     normal_log cr_libm false (Arg true (Scalar (Fin 0)))
       (Arg true (Scalar (Fin 0))) (Arg true (Scalar (Fin (-1))))
     = Err (DomainError "stan::prob::normal_log(%1%)" role v))
  /\ (exists role found expected,
        normal_log cr_libm false (Arg true (Vector [Fin 1; Fin 2; Fin 3]))
          (Arg true (Vector [Fin 0; Fin 0])) (Arg true (Scalar (Fin 1)))
        = Err (ShapeMismatch "stan::prob::normal_log(%1%)"
                 role found expected)).
Proof.
  split.
  - destruct (normal_log_errors cr_libm false (Arg true (Scalar (Fin 0)))
                (Arg true (Scalar (Fin 0))) (Arg true (Scalar (Fin (-1)))))
      as [H _]; try (cbn; lia).
    apply H; exists (Fin (-1)); split; [left; reflexivity |].
    unfold dgt, dlt; real_cmp; reflexivity.
  - destruct (normal_log_errors cr_libm false
                (Arg true (Vector [Fin 1; Fin 2; Fin 3]))
                (Arg true (Vector [Fin 0; Fin 0]))
                (Arg true (Scalar (Fin 1))))
      as [_ H]; try (cbn; lia).
    apply H.
    + unfold numeric_ok; cbn; unfold dgt, dlt; real_cmp; reflexivity.
    + left; unfold incompatible; cbn; lia.
Defined.

(** C7, as stated, fails: with [y] of length 3, [mu] of length 2 and
    [sigma = -1] the call reports the scale, not the lengths. *)
Lemma normal_log_domain_error_first :
  incompatible (Arg true (Vector [Fin 1; Fin 2; Fin 3]))
    (Arg true (Vector [Fin 0; Fin 0]))
  /\ normal_log cr_libm false (Arg true (Vector [Fin 1; Fin 2; Fin 3]))
       (Arg true (Vector [Fin 0; Fin 0])) (Arg true (Scalar (Fin (-1))))
     = Err (DomainError "stan::prob::normal_log(%1%)" "Scale parameter"
              (Fin (-1)))
  /\ ~ (exists role found expected,
          normal_log cr_libm false (Arg true (Vector [Fin 1; Fin 2; Fin 3]))
            (Arg true (Vector [Fin 0; Fin 0])) (Arg true (Scalar (Fin (-1))))
          = Err (ShapeMismatch "stan::prob::normal_log(%1%)"
                   role found expected)).
Proof.
  assert (H : normal_log cr_libm false (Arg true (Vector [Fin 1; Fin 2; Fin 3]))
                (Arg true (Vector [Fin 0; Fin 0]))
                (Arg true (Scalar (Fin (-1))))
              = Err (DomainError "stan::prob::normal_log(%1%)"
                       "Scale parameter" (Fin (-1)))).
  { cbn; unfold dgt, dlt; real_cmp; reflexivity. }
  split; [unfold incompatible; cbn; lia |].
  split; [exact H |].
  intros (role & a & b & Hs); rewrite H in Hs; discriminate.
Qed.

(** ** The piecewise tail policy *)

Lemma sqrt2_bounds : 1 < sqrt 2 < 2.
Proof.
  split.
  - rewrite <- sqrt_1 at 1; apply sqrt_lt_1_alt; lra.
  - replace 2 with (sqrt (2 * 2)) at 2 by (apply sqrt_square; lra).
    apply sqrt_lt_1_alt; lra.
Qed.

Lemma half_dyadic : 1 / 2 = IZR 1 * bpow (-1).
Proof.
  change (bpow (-1)) with (bpow (- (1))); rewrite bpow_neg, bpow_1; lra.
Qed.

(** Rounding between one half and an integer. *)
Lemma rnd_between_half (b : Z) (x : R) :
  (Z.abs b < 2 ^ 53)%Z -> 1 / 2 <= x <= IZR b ->
  exists f, rnd x = Fin f /\ 1 / 2 <= f <= IZR b.
Proof.
  intros Hb Hx; pose proof (IZR_lt_bpow_1024 b Hb).
  pose proof (bpow_gt_0 1024).
  apply rnd_between; auto using representable_IZR; try lra.
  rewrite half_dyadic; apply representable_dyadic; [reflexivity | lia].
Qed.

Lemma SQRT_2_bounds : exists s, SQRT_2 = Fin s /\ 1 <= s <= 2.
Proof.
  pose proof sqrt2_bounds as [H1 H2].
  unfold SQRT_2, dsqrt; rewrite Rltb_false by lra.
  apply (rnd_between_IZR 1 2); [reflexivity | reflexivity | lra].
Qed.

Lemma INV_SQRT_2_bounds : exists i, INV_SQRT_2 = Fin i /\ 1 / 2 <= i <= 1.
Proof.
  destruct SQRT_2_bounds as (s & Hs & H1 & H2).
  unfold INV_SQRT_2; rewrite Hs, ddiv_fin by lra.
  apply (rnd_between_half 1); [reflexivity |].
  assert (Hi : 0 < / s) by (apply Rinv_0_lt_compat; lra).
  assert (E : s * / s = 1) by (apply Rinv_r; lra).
  unfold Rdiv; split; nra.
Qed.

(** The three thresholds are finite and ordered. *)
Lemma thresholds_bounds :
  exists a b c,
    tail_low = Fin a /\ tail_mid = Fin b /\ tail_high = Fin c
    /\ -64 <= a <= -16 /\ -8 <= b <= -2 /\ 4 <= c <= 16.
Proof.
  destruct INV_SQRT_2_bounds as (i & Hi & H1 & H2).
  unfold tail_low, tail_mid, tail_high; rewrite Hi, !dmul_fin.
  destruct (rnd_between_IZR (-64) (-16) (-37.5 * i))
    as (a & Ha & Ha1 & Ha2); [reflexivity | reflexivity | lra |].
  destruct (rnd_between_IZR (-8) (-2) (-5 * i))
    as (b & Hb & Hb1 & Hb2); [reflexivity | reflexivity | lra |].
  destruct (rnd_between_IZR 4 16 (8.25 * i))
    as (c & Hc & Hc1 & Hc2); [reflexivity | reflexivity | lra |].
  exists a, b, c; repeat split; assumption.
Qed.




(** ** Updates through a view *)

Lemma length_list_alter {A : Type} (f : A -> A) (i : nat) (l : list A) :
  List.length (list_alter f i l) = List.length l.
Proof.
  revert i; induction l as [| x l IH]; intros [| i]; simpl; auto.
Qed.

Lemma length_vv_update (f : double -> double) (xs : list double) (n : nat) :
  List.length (vv_update f xs n) = List.length xs.
Proof. apply length_list_alter. Qed.

Lemma list_alter_shift {A : Type} (f : A -> A) (a : A) (ns : list nat)
  (l : list A) :
  fold_left (fun d n => list_alter f n d) (map S ns) (a :: l)
  = a :: fold_left (fun d n => list_alter f n d) ns l.
Proof.
  revert l; induction ns as [| n ns IH]; intros l; simpl; auto.
Qed.

(** Altering every index once, in increasing order, maps the function
    over the list. *)
Lemma list_alter_all {A : Type} (f : A -> A) (l : list A) :
  fold_left (fun d n => list_alter f n d) (seq 0 (List.length l)) l
  = map f l.
Proof.
  induction l as [| x l IH]; simpl; [reflexivity |].
  rewrite <- seq_shift, list_alter_shift, IH; reflexivity.
Qed.

Lemma fold_left_pointwise {A B : Type} (f g : A -> B -> A) (l : list B)
  (a : A) :
  (forall x n, f x n = g x n) -> fold_left f l a = fold_left g l a.
Proof.
  intros H; revert a; induction l as [| n l IH]; intros a; simpl;
    [reflexivity | rewrite H; apply IH].
Qed.

Lemma vv_update_fold (f : double -> double) (ns : list nat)
  (len : nat) (d : list double) :
  List.length d = len ->
  fold_left (fun d' n => vv_update f d' n) ns d
  = fold_left (fun d' n => list_alter f (vv_index len n) d') ns d.
Proof.
  revert d; induction ns as [| n ns IH]; intros d Hd; simpl; [reflexivity |].
  rewrite IH by (rewrite length_vv_update; exact Hd).
  unfold vv_update; rewrite Hd; reflexivity.
Qed.

(** The loop [for (n = 0; n < length; ++n) d[n] = f(d[n])] through a view
    applies [f] once to every slot. *)
Lemma vv_update_all (f : double -> double) (d : list double) :
  fold_left (fun d' n => vv_update f d' n) (seq 0 (List.length d)) d
  = map f d.
Proof.
  rewrite (vv_update_fold f _ (List.length d) d eq_refl).
  destruct (Nat.eq_dec (List.length d) 1) as [H1 | H1].
  - destruct d as [| x [| x' d]]; try discriminate; reflexivity.
  - rewrite <- (list_alter_all f d).
    apply fold_left_pointwise; intros d' n; unfold vv_index.
    apply Nat.eqb_neq in H1; rewrite H1; reflexivity.
Qed.

Lemma length_partials_of (a : argument) :
  List.length (partials_of a)
  = if is_constant_struct a then 0%nat else stan_length a.
Proof.
  unfold partials_of; destruct (is_constant_struct a);
    [reflexivity | apply repeat_length].
Qed.

(** ** The product accumulation and the post-pass of [normal_cdf] *)

Section CdfLoop.

Variable M : libm.
Variables y mu sigma : argument.

Lemma normal_cdf_body_lengths (st : ret) (n : nat) :
  List.length (d_x1 (normal_cdf_body M y mu sigma st n))
  = List.length (d_x1 st)
  /\ List.length (d_x2 (normal_cdf_body M y mu sigma st n))
     = List.length (d_x2 st)
  /\ List.length (d_x3 (normal_cdf_body M y mu sigma st n))
     = List.length (d_x3 st).
Proof.
  unfold normal_cdf_body; cbn [d_x1 d_x2 d_x3].
  destruct (is_constant_struct y), (is_constant_struct mu),
    (is_constant_struct sigma); cbn [negb];
    rewrite ?length_vv_update; auto.
Qed.

Lemma normal_cdf_fold_lengths (ns : list nat) (st : ret) :
  List.length (d_x1 (fold_left (normal_cdf_body M y mu sigma) ns st))
  = List.length (d_x1 st)
  /\ List.length (d_x2 (fold_left (normal_cdf_body M y mu sigma) ns st))
     = List.length (d_x2 st)
  /\ List.length (d_x3 (fold_left (normal_cdf_body M y mu sigma) ns st))
     = List.length (d_x3 st).
Proof.
  revert st; induction ns as [| n ns IH]; intros st; simpl; [auto |].
  destruct (IH (normal_cdf_body M y mu sigma st n)) as (H1 & H2 & H3).
  destruct (normal_cdf_body_lengths st n) as (E1 & E2 & E3).
  rewrite H1, H2, H3; auto.
Qed.

(** The running value is the product of the per-element values. *)
Lemma normal_cdf_fold_val (ns : list nat) (st : ret) :
  val (fold_left (normal_cdf_body M y mu sigma) ns st)
  = fold_left
      (fun cdf n =>
         (cdf * normal_cdf_cdf_ M (scaled_diff_at y mu sigma n))%D)
      ns (val st).
Proof.
  revert st; induction ns as [| n ns IH]; intros st; simpl; [reflexivity |].
  rewrite IH; reflexivity.
Qed.

Lemma normal_cdf_rescale_map (a : argument) (cdf : double)
  (d : list double) :
  List.length d = (if is_constant_struct a then 0%nat else stan_length a) ->
  normal_cdf_rescale a cdf d = map (fun x => (x * cdf)%D) d.
Proof.
  unfold normal_cdf_rescale; destruct (is_constant_struct a); cbn [negb].
  - destruct d; [reflexivity | discriminate].
  - intros <-; apply vv_update_all.
Qed.

End CdfLoop.

(** C3.  On arguments that are not empty and pass the checks,
    [normal_cdf] returns the product, started from 1, of the per-element
    values over the broadcast indices.  The accumulator of each argument
    has one slot per element of a tracked argument and none for a constant
    one, and each slot returned is the slot left by the main loop
    multiplied, once, by the final product. *)
Theorem normal_cdf_product_and_rescale (M : libm) (y mu sigma : argument) :
  any_empty y mu sigma = false ->
  normal_cdf_checks "stan::prob::normal_cdf(%1%)" y mu sigma = Ok tt ->
  let st :=
    normal_cdf_loop M y mu sigma
      (Ret (Fin 1) (partials_of y) (partials_of mu) (partials_of sigma)) in
  exists r,
    normal_cdf M y mu sigma = Ok r
    /\ val r
       = fold_left
           (fun cdf n =>
              (cdf * normal_cdf_cdf_ M (scaled_diff_at y mu sigma n))%D)
           (seq 0 (max_size y mu sigma)) (Fin 1)
    /\ d_x1 r = map (fun d => (d * val r)%D) (d_x1 st)
    /\ d_x2 r = map (fun d => (d * val r)%D) (d_x2 st)
    /\ d_x3 r = map (fun d => (d * val r)%D) (d_x3 st)
    /\ List.length (d_x1 r)
       = (if is_constant_struct y then 0%nat else stan_length y)
    /\ List.length (d_x2 r)
       = (if is_constant_struct mu then 0%nat else stan_length mu)
    /\ List.length (d_x3 r)
       = (if is_constant_struct sigma then 0%nat else stan_length sigma).
Proof.
  intros Hne Hchk st.
  unfold normal_cdf; rewrite Hne, Hchk; cbn [bind].
  fold st.
  destruct (normal_cdf_fold_lengths M y mu sigma
              (seq 0 (max_size y mu sigma))
              (Ret (Fin 1) (partials_of y) (partials_of mu)
                 (partials_of sigma))) as (L1 & L2 & L3).
  cbn [d_x1 d_x2 d_x3] in L1, L2, L3.
  rewrite length_partials_of in L1, L2, L3.
  fold (normal_cdf_loop M y mu sigma
          (Ret (Fin 1) (partials_of y) (partials_of mu)
             (partials_of sigma))) in L1, L2, L3.
  fold st in L1, L2, L3.
  eexists; split; [reflexivity |].
  cbn [val d_x1 d_x2 d_x3].
  rewrite !normal_cdf_rescale_map by assumption.
  rewrite !length_map.
  repeat split; try assumption.
  subst st; unfold normal_cdf_loop; rewrite normal_cdf_fold_val; reflexivity.
Qed.

(** A tracked [y = 0] at a constant location 0 with a tracked scale 1:
    the result is the product of 1 and the value of the single element,
    and carries one slot for [y] and one for [sigma]. *)
Lemma normal_cdf_product_and_rescale_witness :
  exists r,
    normal_cdf cr_libm (Arg false (Scalar (Fin 0)))
      (Arg true (Scalar (Fin 0))) (Arg false (Scalar (Fin 1))) = Ok r
    /\ val r
       = (Fin 1
          * normal_cdf_cdf_ cr_libm
              (scaled_diff_at (Arg false (Scalar (Fin 0)))
                 (Arg true (Scalar (Fin 0))) (Arg false (Scalar (Fin 1)))
                 0))%D
    /\ List.length (d_x1 r) = 1%nat
    /\ List.length (d_x2 r) = 0%nat
    /\ List.length (d_x3 r) = 1%nat.
Proof.
  destruct (normal_cdf_product_and_rescale cr_libm
              (Arg false (Scalar (Fin 0))) (Arg true (Scalar (Fin 0)))
              (Arg false (Scalar (Fin 1))))
    as (r & Hr & Hval & _ & _ & _ & L1 & L2 & L3).
  - reflexivity.
  - cbn; unfold dgt, dlt; real_cmp; reflexivity.
  - exists r; repeat split; assumption.
Defined.

(** ** The main loop of [normal_log] *)

Lemma bind_ok (m k : result unit) : (m ;; k) = Ok tt -> m = Ok tt /\ k = Ok tt.
Proof. destruct m as [[] | e]; cbn; [auto | discriminate]. Qed.

(** The checks leave lengths that are 1 or the broadcast length. *)
Lemma normal_log_checks_sizes (y mu sigma : argument) :
  normal_log_checks y mu sigma = Ok tt ->
  let N := max_size y mu sigma in
  (stan_length y = 1 \/ stan_length y = N)%nat
  /\ (stan_length mu = 1 \/ stan_length mu = N)%nat
  /\ (stan_length sigma = 1 \/ stan_length sigma = N)%nat.
Proof.
  intros H N; unfold normal_log_checks in H; cbv zeta in H.
  apply bind_ok in H as [_ H]; apply bind_ok in H as [_ H].
  apply bind_ok in H as [_ H]; unfold check_consistent_sizes in H.
  fold N in H.
  apply bind_ok in H as [Hy H]; apply bind_ok in H as [Hm Hs].
  destruct (check_consistent_size_cases "stan::prob::normal_log(%1%)"
              "Random variable" y N) as [[? _] | [_ E]];
    [| rewrite E in Hy; discriminate].
  destruct (check_consistent_size_cases "stan::prob::normal_log(%1%)"
              "Location parameter" mu N) as [[? _] | [_ E]];
    [| rewrite E in Hm; discriminate].
  destruct (check_consistent_size_cases "stan::prob::normal_log(%1%)"
              "Scale parameter" sigma N) as [[? _] | [_ E]];
    [| rewrite E in Hs; discriminate].
  auto.
Qed.

Lemma vv_get_map (f : double -> double) (xs : list double) (n N : nat) :
  (List.length xs = 1 \/ List.length xs = N)%nat -> (n < N)%nat ->
  vv_get (map f xs) n = f (vv_get xs n).
Proof.
  intros Hlen Hn; unfold vv_get; rewrite length_map.
  assert (Hi : (vv_index (List.length xs) n < List.length xs)%nat).
  { unfold vv_index; destruct (Nat.eqb_spec (List.length xs) 1); lia. }
  rewrite (nth_indep _ NaN (f NaN)) by (rewrite length_map; exact Hi).
  apply map_nth.
Qed.

Lemma list_alter_map_seq {A : Type} (f : A -> A) (g : nat -> A)
  (i s len : nat) :
  list_alter f i (map g (seq s len))
  = map (fun k => if (k =? s + i)%nat then f (g k) else g k) (seq s len).
Proof.
  revert i s; induction len as [| len IH]; intros i s; [reflexivity |].
  destruct i as [| i]; simpl.
  - rewrite Nat.add_0_r, Nat.eqb_refl; f_equal.
    apply map_ext_in; intros k Hk; apply in_seq in Hk.
    destruct (Nat.eqb_spec k s); [lia | reflexivity].
  - destruct (Nat.eqb_spec s (s + S i)); [lia |]; f_equal.
    rewrite IH; apply map_ext; intros k.
    replace (S s + i)%nat with (s + S i)%nat by lia; reflexivity.
Qed.

(** A sequence of compound assignments through a view, slot by slot:
    slot [k] receives the updates of the indices sent to it, in order. *)
Lemma vv_update_slots (step : nat -> double -> double) (ns : list nat)
  (len : nat) (h : nat -> double) :
  fold_left (fun d n => vv_update (step n) d n) ns (map h (seq 0 len))
  = map (fun k =>
           fold_left
             (fun v n => if (vv_index len n =? k)%nat then step n v else v)
             ns (h k))
      (seq 0 len).
Proof.
  revert h; induction ns as [| n ns IH]; intros h; cbn [fold_left];
    [reflexivity |].
  unfold vv_update at 2; rewrite length_map, length_seq.
  rewrite list_alter_map_seq, IH.
  apply map_ext; intros k; cbn [Nat.add].
  rewrite (Nat.eqb_sym k); reflexivity.
Qed.

Lemma repeat_map_seq {A : Type} (a : A) (len : nat) :
  repeat a len = map (fun _ => a) (seq 0 len).
Proof.
  induction len as [| len IH]; [reflexivity |].
  rewrite seq_S, map_app, <- IH; simpl.
  rewrite <- repeat_cons; reflexivity.
Qed.

(** The accumulator of an argument after compound assignments at the
    indices below [N]. *)
Lemma partials_slots (a : argument) (step : nat -> double -> double)
  (N : nat) :
  (if is_constant_struct a then partials_of a
   else fold_left (fun d n => vv_update (step n) d n) (seq 0 N)
          (partials_of a))
  = acc (is_constant_struct a) (stan_length a) N step.
Proof.
  unfold acc, partials_of, slot_fold.
  destruct (is_constant_struct a); [reflexivity |].
  rewrite repeat_map_seq; apply vv_update_slots.
Qed.

Section NormalLogLoop.

Variable M : libm.
Variable propto : bool.
Variables y mu sigma : argument.

Let N := max_size y mu sigma.
Let cy := is_constant_struct y.
Let cmu := is_constant_struct mu.
Let cs := is_constant_struct sigma.

Hypothesis sigma_size : (stan_length sigma = 1 \/ stan_length sigma = N)%nat.
Hypothesis included : include_summand propto [cy; cmu; cs] = true.

Lemma inv_sigma_at (n : nat) :
  (n < N)%nat ->
  vv_get (normal_log_inv_sigma sigma) n
  = (Fin 1 / vv_get (values sigma) n)%D.
Proof.
  intros Hn; unfold normal_log_inv_sigma.
  apply (vv_get_map (fun s => (Fin 1 / s)%D) _ n N); assumption.
Qed.

(** One iteration: the running sum receives the terms of index [n] and
    each tracked accumulator one compound assignment. *)
Lemma normal_log_body_at (st : ret) (n : nat) :
  (n < N)%nat ->
  normal_log_body M propto y mu sigma
    (normal_log_inv_sigma sigma) (normal_log_log_sigma M propto sigma) st n
  = Ret (log_term M (include_summand propto [])
           (include_summand propto [cs]) y mu sigma (val st) n)
      (if cy then d_x1 st
       else vv_update (fun d => (d - dmu_at y mu sigma n)%D) (d_x1 st) n)
      (if cmu then d_x2 st
       else vv_update (fun d => (d + dmu_at y mu sigma n)%D) (d_x2 st) n)
      (if cs then d_x3 st
       else vv_update (fun d => (d + dsigma_at y mu sigma n)%D)
              (d_x3 st) n).
Proof.
  intros Hn; unfold normal_log_body, log_term, dmu_at, dsigma_at, z_at.
  fold cy cmu cs; rewrite included, (inv_sigma_at n Hn).
  assert (Hlog : include_summand propto [cs] = true ->
                 vv_get (normal_log_log_sigma M propto sigma) n
                 = m_log M (vv_get (values sigma) n)).
  { intros Hs; unfold normal_log_log_sigma; fold cs; rewrite Hs.
    apply (vv_get_map (m_log M) _ n N); assumption. }
  destruct (include_summand propto [cs]) eqn:Hs;
    [rewrite (Hlog eq_refl) |];
    destruct cy, cmu, cs; reflexivity.
Qed.

Lemma normal_log_fold_at (m : nat) (st : ret) :
  (m <= N)%nat ->
  fold_left
    (normal_log_body M propto y mu sigma
       (normal_log_inv_sigma sigma) (normal_log_log_sigma M propto sigma))
    (seq 0 m) st
  = Ret (fold_left
           (log_term M (include_summand propto [])
              (include_summand propto [cs]) y mu sigma)
           (seq 0 m) (val st))
      (if cy then d_x1 st
       else fold_left
              (fun d n =>
                 vv_update (fun v => (v - dmu_at y mu sigma n)%D) d n)
              (seq 0 m) (d_x1 st))
      (if cmu then d_x2 st
       else fold_left
              (fun d n =>
                 vv_update (fun v => (v + dmu_at y mu sigma n)%D) d n)
              (seq 0 m) (d_x2 st))
      (if cs then d_x3 st
       else fold_left
              (fun d n =>
                 vv_update (fun v => (v + dsigma_at y mu sigma n)%D) d n)
              (seq 0 m) (d_x3 st)).
Proof.
  induction m as [| m IH]; intros Hm.
  - destruct st, cy, cmu, cs; reflexivity.
  - rewrite seq_S, !fold_left_app, IH by lia; cbn [fold_left Nat.add].
    rewrite normal_log_body_at by lia; cbn [val d_x1 d_x2 d_x3].
    destruct cy, cmu, cs; reflexivity.
Qed.

(** The outcome of the loop of [normal_log] from the initial state. *)
Lemma normal_log_loop_at :
  normal_log_loop M propto y mu sigma
    (Ret (Fin 0) (partials_of y) (partials_of mu) (partials_of sigma))
  = Ret (fold_left
           (log_term M (include_summand propto [])
              (include_summand propto [cs]) y mu sigma)
           (seq 0 N) (Fin 0))
      (acc cy (stan_length y) N (fun n d => (d - dmu_at y mu sigma n)%D))
      (acc cmu (stan_length mu) N (fun n d => (d + dmu_at y mu sigma n)%D))
      (acc cs (stan_length sigma) N
         (fun n d => (d + dsigma_at y mu sigma n)%D)).
Proof.
  unfold normal_log_loop; fold N.
  rewrite normal_log_fold_at by lia; cbn [val d_x1 d_x2 d_x3].
  unfold cy, cmu, cs; rewrite !partials_slots; reflexivity.
Qed.

End NormalLogLoop.

(** The outcome of [normal_log] on arguments that are not empty and pass
    the checks. *)
Lemma normal_log_valid (M : libm) (propto : bool) (y mu sigma : argument) :
  any_empty y mu sigma = false ->
  normal_log_checks y mu sigma = Ok tt ->
  let N := max_size y mu sigma in
  let cy := is_constant_struct y in
  let cmu := is_constant_struct mu in
  let cs := is_constant_struct sigma in
  normal_log M propto y mu sigma
  = Ok (if include_summand propto [cy; cmu; cs]
        then Ret (fold_left
                    (log_term M (include_summand propto [])
                       (include_summand propto [cs]) y mu sigma)
                    (seq 0 N) (Fin 0))
               (acc cy (stan_length y) N
                  (fun n d => (d - dmu_at y mu sigma n)%D))
               (acc cmu (stan_length mu) N
                  (fun n d => (d + dmu_at y mu sigma n)%D))
               (acc cs (stan_length sigma) N
                  (fun n d => (d + dsigma_at y mu sigma n)%D))
        else plain (Fin 0)).
Proof.
  intros Hne Hchk N cy cmu cs.
  destruct (normal_log_checks_sizes y mu sigma Hchk) as (_ & _ & Hs).
  unfold normal_log; rewrite Hne, Hchk; cbn [bind].
  fold cy cmu cs.
  destruct (include_summand propto [cy; cmu; cs]) eqn:Hinc; cbn [negb];
    [| reflexivity].
  rewrite (normal_log_loop_at M propto y mu sigma Hs Hinc); reflexivity.
Qed.

(** ** The value and the derivatives of [normal_log] *)



Lemma normal_log_checks_scalars (cy cmu cs : bool) (y mu sigma : double) :
  isnan y = false -> isfinite mu = true -> (sigma >? Fin 0)%D = true ->
  normal_log_checks (Arg cy (Scalar y)) (Arg cmu (Scalar mu))
    (Arg cs (Scalar sigma)) = Ok tt.
Proof.
  intros Hy Hm Hs.
  unfold normal_log_checks, check_not_nan, check_finite, check_positive.
  rewrite !check_scalar, Hy, Hm, Hs; reflexivity.
Qed.

Lemma normal_log_checks_pair (cy cmu cs : bool) (y1 y2 mu sigma : double) :
  isnan y1 = false -> isnan y2 = false -> isfinite mu = true ->
  (sigma >? Fin 0)%D = true ->
  normal_log_checks (Arg cy (Vector [y1; y2])) (Arg cmu (Scalar mu))
    (Arg cs (Scalar sigma)) = Ok tt.
Proof.
  intros H1 H2 Hm Hs.
  unfold normal_log_checks, check_not_nan, check_finite, check_positive.
  rewrite !check_scalar, Hm, Hs; cbn [values data check_all].
  rewrite H1, H2; reflexivity.
Qed.

(** The value of a call on three scalars, and on a pair and two
    scalars. *)
Lemma normal_log_scalar_value (M : libm) (propto cy cmu cs : bool)
  (y mu sigma : double) :
  isnan y = false -> isfinite mu = true -> (sigma >? Fin 0)%D = true ->
  include_summand propto [cy; cmu; cs] = true ->
  exists r,
    normal_log M propto (Arg cy (Scalar y)) (Arg cmu (Scalar mu))
      (Arg cs (Scalar sigma)) = Ok r
    /\ val r
       = log_term M (include_summand propto [])
           (include_summand propto [cs]) (Arg cy (Scalar y))
           (Arg cmu (Scalar mu)) (Arg cs (Scalar sigma)) (Fin 0) 0.
Proof.
  intros Hy Hm Hs Hinc.
  rewrite normal_log_valid
    by (reflexivity || apply normal_log_checks_scalars; assumption).
  cbn [is_constant_struct]; rewrite Hinc.
  eexists; split; reflexivity.
Qed.

Lemma normal_log_pair_value (M : libm) (cy cmu cs : bool)
  (y1 y2 mu sigma : double) :
  isnan y1 = false -> isnan y2 = false -> isfinite mu = true ->
  (sigma >? Fin 0)%D = true ->
  exists r,
    normal_log M false (Arg cy (Vector [y1; y2])) (Arg cmu (Scalar mu))
      (Arg cs (Scalar sigma)) = Ok r
    /\ val r
       = log_term M true true (Arg cy (Scalar y2)) (Arg cmu (Scalar mu))
           (Arg cs (Scalar sigma))
           (log_term M true true (Arg cy (Scalar y1)) (Arg cmu (Scalar mu))
              (Arg cs (Scalar sigma)) (Fin 0) 0) 0.
Proof.
  intros H1 H2 Hm Hs.
  rewrite normal_log_valid
    by (reflexivity || apply normal_log_checks_pair; assumption).
  eexists; split; reflexivity.
Qed.



(** C8, as amended.  For scalars [y1], [y2], [mu] and [sigma] that pass
    the checks, [normal_log] on the two-element vector [[y1, y2]] returns
    the value it returns on [y1] with the terms of [y2] added to it in
    turn, while on [y2] it returns the same terms added to 0. *)
Theorem normal_log_broadcast_additive (M : libm) (cy cmu cs : bool)
  (y1 y2 mu sigma : double) :
  isnan y1 = false -> isnan y2 = false -> isfinite mu = true ->
  (sigma >? Fin 0)%D = true ->
  exists r r1 r2,
    normal_log M false (Arg cy (Vector [y1; y2])) (Arg cmu (Scalar mu))
      (Arg cs (Scalar sigma)) = Ok r
    /\ normal_log M false (Arg cy (Scalar y1)) (Arg cmu (Scalar mu))
         (Arg cs (Scalar sigma)) = Ok r1
    /\ normal_log M false (Arg cy (Scalar y2)) (Arg cmu (Scalar mu))
         (Arg cs (Scalar sigma)) = Ok r2
    /\ val r2
       = log_term M true true (Arg cy (Scalar y2)) (Arg cmu (Scalar mu))
           (Arg cs (Scalar sigma)) (Fin 0) 0
    /\ val r
       = log_term M true true (Arg cy (Scalar y2)) (Arg cmu (Scalar mu))
           (Arg cs (Scalar sigma)) (val r1) 0.
Proof.
  intros H1 H2 Hm Hs.
  rewrite (normal_log_valid M false (Arg cy (Vector [y1; y2])))
    by (reflexivity || apply normal_log_checks_pair; assumption).
  rewrite !(normal_log_valid M false (Arg cy (Scalar _)))
    by (reflexivity || apply normal_log_checks_scalars; assumption).
  do 3 eexists; repeat (split; [reflexivity |]).
  split; reflexivity.
Qed.

Lemma normal_log_broadcast_additive_witness :
  exists r r1,
    normal_log cr_libm false (Arg true (Vector [Fin 1; Fin 3]))
      (Arg true (Scalar (Fin 2))) (Arg true (Scalar (Fin 4))) = Ok r
    /\ normal_log cr_libm false (Arg true (Scalar (Fin 1)))
         (Arg true (Scalar (Fin 2))) (Arg true (Scalar (Fin 4))) = Ok r1
    /\ val r
       = log_term cr_libm true true (Arg true (Scalar (Fin 3)))
           (Arg true (Scalar (Fin 2))) (Arg true (Scalar (Fin 4)))
           (val r1) 0.
Proof.
  destruct (normal_log_broadcast_additive cr_libm true true true
              (Fin 1) (Fin 3) (Fin 2) (Fin 4))
    as (r & r1 & r2 & Hr & Hr1 & _ & _ & Hv); try reflexivity.
  - unfold dgt, dlt; apply Rltb_true; lra.
  - exists r, r1; auto.
Defined.

Lemma include_summand_false (propto : bool) (cy cmu cs : bool) :
  include_summand propto [cy; cmu; cs] = false ->
  cy = true /\ cmu = true /\ cs = true.
Proof. destruct propto, cy, cmu, cs; cbn; intros H; auto; discriminate. Qed.

(** C5, as amended.  In proportional mode [normal_log] returns 0, as a
    plain number, when the three arguments are constant and pass the
    checks.  When [sigma] is constant and [y] or [mu] is tracked, on
    arguments that are not empty and pass the checks, the proportional
    value is the running sum of the terms [-0.5 * z * z] alone, the full
    value is the running sum with the constant and [log sigma[n]] as
    well, and the two modes return the same derivatives.  In exact
    arithmetic the two terms of one element differ by
    [-0.5 * log (2 pi) - log sigma], whatever [y] and [mu] are. *)
Theorem normal_log_propto (M : libm) :
  (forall y mu sigma : argument,
      is_constant_struct y = true ->
      is_constant_struct mu = true ->
      is_constant_struct sigma = true ->
      normal_log_checks y mu sigma = Ok tt ->
      normal_log M true y mu sigma = Ok (plain (Fin 0)))
  /\ (forall y mu sigma : argument,
         any_empty y mu sigma = false ->
         normal_log_checks y mu sigma = Ok tt ->
         is_constant_struct sigma = true ->
         is_constant_struct y = false \/ is_constant_struct mu = false ->
         exists rt rf,
           normal_log M true y mu sigma = Ok rt
           /\ normal_log M false y mu sigma = Ok rf
           /\ val rt
              = fold_left (log_term M false false y mu sigma)
                  (seq 0 (max_size y mu sigma)) (Fin 0)
           /\ val rf
              = fold_left (log_term M true true y mu sigma)
                  (seq 0 (max_size y mu sigma)) (Fin 0)
           /\ d_x1 rt = d_x1 rf /\ d_x2 rt = d_x2 rf
           /\ d_x3 rt = d_x3 rf)
  /\ (forall a m s : R,
         log_term_exact a m s - propto_term_exact a m s
         = -0.5 * ln (2 * PI) - ln s).
Proof.
  split; [| split];
    [| | intros a m s; unfold log_term_exact, propto_term_exact; ring].
  - intros y mu sigma Hy Hm Hs Hchk; unfold normal_log.
    rewrite Hchk, Hy, Hm, Hs.
    destruct (any_empty y mu sigma); reflexivity.
  - intros y mu sigma Hne Hchk Hs Hym.
    rewrite (normal_log_valid M true y mu sigma Hne Hchk).
    rewrite (normal_log_valid M false y mu sigma Hne Hchk).
    do 2 eexists; repeat (split; [reflexivity |]).
    rewrite Hs.
    assert (Hinc : include_summand true
                     [is_constant_struct y; is_constant_struct mu; true]
                   = true).
    { destruct Hym as [-> | ->]; cbn; rewrite ?orb_true_r; reflexivity. }
    rewrite Hinc; repeat split.
Qed.

(** A tracked [y = 1] with constant [mu = 2] and [sigma = 4]. *)
Lemma normal_log_propto_witness :
  normal_log cr_libm true (constant 1) (constant 2) (constant 4)
  = Ok (plain (Fin 0))
  /\ exists rt rf,
       normal_log cr_libm true (tracked 1) (constant 2) (constant 4) = Ok rt
       /\ normal_log cr_libm false (tracked 1) (constant 2) (constant 4)
          = Ok rf
       /\ d_x1 rt = d_x1 rf.
Proof.
  assert (Hchk : forall c,
             normal_log_checks (Arg c (Scalar (Fin 1))) (constant 2)
               (constant 4) = Ok tt).
  { intros c; apply normal_log_checks_scalars; try reflexivity.
    unfold dgt, dlt; apply Rltb_true; lra. }
  destruct (normal_log_propto cr_libm) as (H1 & H2 & _); split.
  - apply H1; try reflexivity; apply Hchk.
  - destruct (H2 (tracked 1) (constant 2) (constant 4))
      as (rt & rf & Ht & Hf & _ & _ & Hd & _);
      try reflexivity; [apply Hchk | left; reflexivity |].
    exists rt, rf; auto.
Defined.

(** The loop leaves the accumulator of a constant argument as it finds
    it, whatever it holds. *)
Lemma normal_log_fold_constant (M : libm) (propto : bool)
  (y mu sigma : argument) (inv_sigma log_sigma : list double)
  (ns : list nat) (st : ret) :
  let st' :=
    fold_left (normal_log_body M propto y mu sigma inv_sigma log_sigma)
      ns st
  in
  (is_constant_struct y = true -> d_x1 st' = d_x1 st)
  /\ (is_constant_struct mu = true -> d_x2 st' = d_x2 st)
  /\ (is_constant_struct sigma = true -> d_x3 st' = d_x3 st).
Proof.
  revert st; induction ns as [| n ns IH]; intros st; cbn [fold_left];
    [auto |].
  destruct (IH (normal_log_body M propto y mu sigma inv_sigma log_sigma
                  st n))
    as (H1 & H2 & H3).
  repeat split; intros Hc;
    [rewrite (H1 Hc) | rewrite (H2 Hc) | rewrite (H3 Hc)];
    unfold normal_log_body; cbn [d_x1 d_x2 d_x3]; rewrite Hc; reflexivity.
Qed.

(** C4, as amended.  On arguments that are not empty and pass the checks
    [normal_log] returns, for each tracked argument, one slot per
    element.  Starting from 0, the slot receives in turn, for each
    broadcast index [n] sent to it, the compound assignment of the source:
    with [inv = 1 / sigma[n]] and [z = (y[n] - mu[n]) * inv], [inv * z] is
    subtracted from the slot of [y] and added to the slot of [mu], and
    [- inv + inv * (z * z)] is added to the slot of [sigma], every
    operation being one of doubles.  A constant argument has no slot, and
    on any arguments and from any state the loop leaves the accumulator
    of a constant argument untouched.  In exact arithmetic, with
    [z = (y - mu) / sigma], the two quantities are [z / sigma] and
    [- 1 / sigma + z^2 / sigma]. *)
Theorem normal_log_partials (M : libm) :
  (forall (propto : bool) (y mu sigma : argument),
      any_empty y mu sigma = false ->
      normal_log_checks y mu sigma = Ok tt ->
      exists r,
        normal_log M propto y mu sigma = Ok r
        /\ d_x1 r
           = acc (is_constant_struct y) (stan_length y)
               (max_size y mu sigma)
               (fun n d => (d - dmu_at y mu sigma n)%D)
        /\ d_x2 r
           = acc (is_constant_struct mu) (stan_length mu)
               (max_size y mu sigma)
               (fun n d => (d + dmu_at y mu sigma n)%D)
        /\ d_x3 r
           = acc (is_constant_struct sigma) (stan_length sigma)
               (max_size y mu sigma)
               (fun n d => (d + dsigma_at y mu sigma n)%D))
  /\ (forall (propto : bool) (y mu sigma : argument) (st : ret),
         (is_constant_struct y = true ->
          d_x1 (normal_log_loop M propto y mu sigma st) = d_x1 st)
         /\ (is_constant_struct mu = true ->
             d_x2 (normal_log_loop M propto y mu sigma st) = d_x2 st)
         /\ (is_constant_struct sigma = true ->
             d_x3 (normal_log_loop M propto y mu sigma st) = d_x3 st))
  /\ (forall a m s : R,
         0 < s ->
         dmu_exact a m s = (a - m) / s / s
         /\ dsigma_exact a m s = - 1 / s + ((a - m) / s)² / s).
Proof.
  split; [| split];
    [| | intros a m s Hs; unfold dmu_exact, dsigma_exact, Rsqr; split;
         field; lra].
  - intros propto y mu sigma Hne Hchk.
    rewrite (normal_log_valid M propto y mu sigma Hne Hchk).
    eexists; split; [reflexivity |].
    destruct (include_summand propto _) eqn:Hinc; [repeat split |].
    apply include_summand_false in Hinc as (-> & -> & ->).
    repeat split.
  - intros propto y mu sigma st; unfold normal_log_loop.
    apply normal_log_fold_constant.
Qed.

(** A tracked vector [y = [1, 3]], a tracked scalar [mu = 2] and a
    constant scalar [sigma = 4]: one slot per element of [y], one slot for
    [mu] that receives both contributions, no slot for [sigma]. *)
Lemma normal_log_partials_witness :
  exists r,
    normal_log cr_libm false (Arg false (Vector [Fin 1; Fin 3]))
      (Arg false (Scalar (Fin 2))) (Arg true (Scalar (Fin 4))) = Ok r
    /\ List.length (d_x1 r) = 2%nat
    /\ List.length (d_x2 r) = 1%nat
    /\ d_x3 r = [].
Proof.
  destruct (normal_log_partials cr_libm) as (H & _ & _).
  destruct (H false (Arg false (Vector [Fin 1; Fin 3]))
              (Arg false (Scalar (Fin 2))) (Arg true (Scalar (Fin 4))))
    as (r & Hr & H1 & H2 & H3); [reflexivity | |].
  - apply normal_log_checks_pair; try reflexivity.
    unfold dgt, dlt; apply Rltb_true; lra.
  - exists r; rewrite H1, H2, H3; repeat split; assumption.
Defined.

(** ** Where rounding shows *)

Lemma ZnearestE_within (r : R) (k : Z) :
  Rabs (r - IZR k) <= 1 / 2 ->
  Rabs (r - IZR k) < 1 / 2 \/ Z.even k = true ->
  ZnearestE r = k.
Proof.
  intros Hle Hor; unfold ZnearestE.
  destruct (Rle_dec (IZR k) r) as [Hge | Hlt].
  - rewrite (Rabs_pos_eq (r - IZR k)) in Hle, Hor by lra.
    rewrite (Zfloor_eq k r) by lra.
    destruct (Rlt_dec (r - IZR k) (1 / 2)); [reflexivity |].
    destruct (Rlt_dec (1 / 2) (r - IZR k)); [lra |].
    destruct Hor as [Hor | ->]; [lra | reflexivity].
  - assert (Hneg : r - IZR k < 0) by lra.
    rewrite (Rabs_left (r - IZR k)) in Hle, Hor by exact Hneg.
    rewrite (Zfloor_eq (k - 1) r) by (rewrite minus_IZR; lra).
    rewrite minus_IZR.
    destruct (Rlt_dec (r - (IZR k - 1)) (1 / 2)); [lra |].
    destruct (Rlt_dec (1 / 2) (r - (IZR k - 1))); [lia |].
    destruct Hor as [Hor | Hev]; [lra |].
    replace (k - 1)%Z with (Z.pred k) by lia.
    rewrite Z.even_pred, <- Z.negb_even, Hev; cbn; lia.
Qed.

(** The rounding of a number, from its exponent and its nearest scaled
    integer. *)
Lemma rnd_at (x : R) (e n : Z) :
  fexp x = e -> ZnearestE (x * bpow (- e)) = n ->
  Rabs (IZR n * bpow e) < bpow 1024 ->
  rnd x = Fin (IZR n * bpow e).
Proof.
  intros He Hn Hb; unfold rnd, rnd_R; rewrite He, Hn.
  rewrite Rltb_true by exact Hb; reflexivity.
Qed.

Lemma bpow_53 : bpow 53 = 9007199254740992.
Proof. rewrite (bpow_IZR 53) by lia; reflexivity. Qed.

Lemma bpow_54 : bpow 54 = 18014398509481984.
Proof. rewrite (bpow_IZR 54) by lia; reflexivity. Qed.

Lemma bpow_m1 : bpow (-1) = / 2.
Proof.
  change (bpow (-1)) with (bpow (- (1))); rewrite bpow_neg, bpow_1; lra.
Qed.

Lemma bpow_53_lt_1024 : bpow 53 + 2 < bpow 1024.
Proof.
  pose proof (bpow_lt 54 1024 ltac:(lia)).
  rewrite bpow_54 in *; rewrite bpow_53; lra.
Qed.

Lemma fexp_near_bpow_53 (x : R) :
  - bpow 53 - 2 <= x <= - bpow 53 -> fexp x = 1%Z.
Proof.
  intros Hx; apply fexp_eq; [lia | |].
  - change (1 + 53)%Z with 54%Z; rewrite bpow_54; rewrite bpow_53 in Hx.
    rewrite Rabs_left by lra; lra.
  - right; change (1 + 52)%Z with 53%Z; rewrite bpow_53 in *.
    rewrite Rabs_left by lra; lra.
Qed.

(** Beyond [2^53] the members of the format are two apart: a term of
    magnitude at most 1 is absorbed. *)
Lemma absorbed_term (c : R) :
  -1 <= c <= 0 -> rnd (c + - bpow 53) = Fin (- bpow 53).
Proof.
  intros Hc; pose proof bpow_53_lt_1024 as Hlt.
  assert (Hv : IZR (- 4503599627370496) * bpow 1 = - bpow 53)
    by (rewrite bpow_1, bpow_53; lra).
  replace (Fin (- bpow 53))
    with (Fin (IZR (- 4503599627370496) * bpow 1)) by (f_equal; exact Hv).
  apply rnd_at.
  - apply fexp_near_bpow_53; lra.
  - change (- (1))%Z with (-1)%Z; rewrite bpow_m1.
    apply ZnearestE_within; [| right; reflexivity].
    rewrite bpow_53; apply Rabs_le; lra.
  - rewrite Hv, Rabs_left; pose proof (bpow_gt_0 53); lra.
Qed.

(** A term between -2 and -3/2 moves the sum to the next member. *)
Lemma carried_term (d : R) :
  -2 <= d <= -3 / 2 -> rnd (d + - bpow 53) = Fin (- bpow 53 - 2).
Proof.
  intros Hd; pose proof bpow_53_lt_1024 as Hlt.
  assert (Hv : IZR (- 4503599627370497) * bpow 1 = - bpow 53 - 2)
    by (rewrite bpow_1, bpow_53; lra).
  replace (Fin (- bpow 53 - 2))
    with (Fin (IZR (- 4503599627370497) * bpow 1)) by (f_equal; exact Hv).
  apply rnd_at.
  - apply fexp_near_bpow_53; lra.
  - change (- (1))%Z with (-1)%Z; rewrite bpow_m1.
    assert (Hn : Rabs ((d + - bpow 53) * / 2 - IZR (- 4503599627370497))
                 < 1 / 2)
      by (rewrite bpow_53; apply Rabs_def1; lra).
    apply ZnearestE_within; [lra | left; exact Hn].
  - rewrite Hv, Rabs_left; pose proof (bpow_gt_0 53); lra.
Qed.

Lemma representable_twice (f : R) :
  representable f -> representable (2 * f).
Proof.
  intros (m & e & -> & Hm & He); exists m, (e + 1)%Z.
  rewrite bpow_plus, bpow_1; split; [lra | split; [exact Hm | lia]].
Qed.

Lemma PI_upper : PI <= 7 / 2.
Proof.
  pose proof (PI_ineq 1) as [_ H].
  unfold sum_f_R0, tg_alt, PI_tg in H; simpl in H; lra.
Qed.

Lemma exp_square (x : R) : exp (2 * x) = exp x * exp x.
Proof. rewrite <- exp_plus; f_equal; lra. Qed.

Lemma exp_3_2 : exp (3 / 2) <= 6.
Proof.
  pose proof exp_le_3 as H1.
  pose proof (exp_square (1 / 2)) as Hh.
  replace (2 * (1 / 2)) with 1 in Hh by lra.
  pose proof (exp_pos (1 / 2)) as Hp.
  replace (3 / 2) with (1 + 1 / 2) by lra; rewrite exp_plus.
  assert (exp (1 / 2) <= 2) by nra.
  pose proof (exp_pos 1); nra.
Qed.

Lemma exp_2 : 7 <= exp 2.
Proof.
  pose proof (exp_ineq1_le (1 / 32)) as H0.
  pose proof (exp_square (1 / 32)) as H1.
  pose proof (exp_square (1 / 16)) as H2.
  pose proof (exp_square (1 / 8)) as H3.
  pose proof (exp_square (1 / 4)) as H4.
  pose proof (exp_square (1 / 2)) as H5.
  pose proof (exp_square 1) as H6.
  replace (2 * (1 / 32)) with (1 / 16) in H1 by lra.
  replace (2 * (1 / 16)) with (1 / 8) in H2 by lra.
  replace (2 * (1 / 8)) with (1 / 4) in H3 by lra.
  replace (2 * (1 / 4)) with (1 / 2) in H4 by lra.
  replace (2 * (1 / 2)) with 1 in H5 by lra.
  replace (2 * 1) with 2 in H6 by lra.
  assert (A1 : 1.0634 <= exp (1 / 16)) by nra.
  assert (A2 : 1.1308 <= exp (1 / 8)) by nra.
  assert (A3 : 1.2787 <= exp (1 / 4)) by nra.
  assert (A4 : 1.635 <= exp (1 / 2)) by nra.
  assert (A5 : 2.673 <= exp 1) by nra.
  nra.
Qed.

Lemma ln_le (a b : R) : 0 < a -> a <= b -> ln a <= ln b.
Proof.
  intros Ha [Hlt | ->]; [left; apply ln_increasing; assumption | lra].
Qed.

Lemma ln_6_7 (t : R) : 6 <= t <= 7 -> 3 / 2 <= ln t <= 2.
Proof.
  intros [H6 H7]; split.
  - rewrite <- (ln_exp (3 / 2)); apply ln_le; [apply exp_pos |].
    pose proof exp_3_2; lra.
  - rewrite <- (ln_exp 2); apply ln_le; [lra |].
    pose proof exp_2; lra.
Qed.

Lemma three_halves_dyadic : 3 / 2 = IZR 3 * bpow (-1).
Proof. rewrite bpow_m1; lra. Qed.

Lemma three_quarters_dyadic : - (3 / 4) = IZR (-3) * bpow (-2).
Proof.
  change (bpow (-2)) with (bpow (- (2))); rewrite bpow_neg.
  rewrite (bpow_IZR 2) by lia; change (2 ^ 2)%Z with 4%Z; lra.
Qed.

Lemma seven_halves_dyadic : 7 / 2 = IZR 7 * bpow (-1).
Proof. rewrite bpow_m1; lra. Qed.

Ltac format_member :=
  first
    [ apply representable_IZR; reflexivity
    | rewrite three_halves_dyadic; apply representable_dyadic;
      [reflexivity | lia]
    | rewrite seven_halves_dyadic; apply representable_dyadic;
      [reflexivity | lia]
    | rewrite three_quarters_dyadic; apply representable_dyadic;
      [reflexivity | lia] ].

Lemma small_lt_bpow_1024 (x : R) : Rabs x <= 8 -> - bpow 1024 < x < bpow 1024.
Proof.
  intros H; pose proof (bpow_lt 54 1024 ltac:(lia)) as Hb.
  rewrite bpow_54 in Hb; unfold Rabs in H.
  destruct (Rcase_abs x); lra.
Qed.

Ltac small_bound :=
  match goal with
  | |- - bpow 1024 < ?x =>
      apply (small_lt_bpow_1024 x); apply Rabs_le; lra
  | |- ?x < bpow 1024 =>
      apply (small_lt_bpow_1024 x); apply Rabs_le; lra
  end.

(** With a correctly rounded logarithm the constant [-0.5 * log (2 pi)]
    is a member of the format between -1 and -3/4. *)
Lemma NEG_LOG_SQRT_TWO_PI_bounds :
  exists c,
    NEG_LOG_SQRT_TWO_PI cr_libm = Fin c
    /\ -1 <= c <= - (3 / 4) /\ representable c.
Proof.
  pose proof PI2_3_2 as Hlo; pose proof PI_upper as Hhi.
  destruct (rnd_between 3 (7 / 2) PI) as (p & Hp & Hpb);
    try format_member; try small_bound; [lra |].
  destruct (rnd_between 6 7 (2 * p)) as (t & Ht & Htb);
    try format_member; try small_bound; [lra |].
  destruct (rnd_between (3 / 2) 2 (ln t)) as (l & Hl & Hlb);
    try format_member; try small_bound; [apply ln_6_7; exact Htb |].
  destruct (rnd_between (-1) (- (3 / 4)) (-0.5 * l)) as (c & Hc & Hcb);
    try format_member; try small_bound; [lra |].
  exists c; split; [| split; [exact Hcb | apply (rnd_fin _ _ Hc)]].
  unfold NEG_LOG_SQRT_TWO_PI, pi; rewrite Hp, dmul_fin, Ht.
  cbn [m_log cr_libm]; rewrite Rltb_true by lra.
  rewrite Hl, dmul_fin; exact Hc.
Qed.

Lemma m_log_1 : m_log cr_libm (Fin 1) = Fin 0.
Proof.
  cbn [m_log cr_libm]; rewrite Rltb_true by lra.
  rewrite ln_1; apply rnd_0.
Qed.

(** The standardised difference with location 0 and scale 1. *)
Lemma z_at_unit (cy cmu cs : bool) (y : R) (n : nat) :
  rnd y = Fin y ->
  z_at (Arg cy (Scalar (Fin y))) (Arg cmu (Scalar (Fin 0)))
    (Arg cs (Scalar (Fin 1))) n = Fin y.
Proof.
  intros Hy; unfold z_at; cbn.
  rewrite Reqb_false by lra.
  replace (y + - 0) with y by lra; rewrite Hy.
  replace (1 / 1) with 1 by lra.
  rewrite rnd_1, dmul_fin, Rmult_1_r; exact Hy.
Qed.

Lemma unit_checks (cy cmu cs : bool) (y : R) :
  normal_log_checks (Arg cy (Scalar (Fin y))) (Arg cmu (Scalar (Fin 0)))
    (Arg cs (Scalar (Fin 1))) = Ok tt.
Proof.
  apply normal_log_checks_scalars; try reflexivity.
  unfold dgt, dlt; apply Rltb_true; lra.
Qed.

Lemma half_square_large :
  (Fin (-0.5) * (Fin 134217728 * Fin 134217728))%D = Fin (- bpow 53).
Proof.
  rewrite dmul_fin.
  replace (134217728 * 134217728) with (IZR 1 * bpow 54)
    by (rewrite bpow_54; lra).
  rewrite rnd_dyadic by (reflexivity || lia).
  rewrite dmul_fin.
  replace (-0.5 * (IZR 1 * bpow 54)) with (IZR (-1) * bpow 53)
    by (rewrite bpow_54, bpow_53; lra).
  rewrite rnd_dyadic by (reflexivity || lia).
  f_equal; lra.
Qed.

Lemma half_square_0 : (Fin (-0.5) * (Fin 0 * Fin 0))%D = Fin 0.
Proof.
  rewrite dmul_fin, Rmult_0_r, rnd_0, dmul_fin, Rmult_0_r; apply rnd_0.
Qed.

Lemma vv_get_scalar (c : bool) (d : double) (n : nat) :
  vv_get (values (Arg c (Scalar d))) n = d.
Proof. reflexivity. Qed.

(** The terms of one element with location 0 and scale 1, added to the
    running sum [a]. *)
Lemma log_term_unit (cy cmu cs : bool) (y a c : R) (n : nat) :
  rnd y = Fin y ->
  NEG_LOG_SQRT_TWO_PI cr_libm = Fin c ->
  log_term cr_libm true true (Arg cy (Scalar (Fin y)))
    (Arg cmu (Scalar (Fin 0))) (Arg cs (Scalar (Fin 1))) (Fin a) n
  = (rnd (a + c) + Fin (-0.5) * (Fin y * Fin y))%D.
Proof.
  intros Hy Hc; unfold log_term.
  rewrite z_at_unit by exact Hy.
  rewrite vv_get_scalar, m_log_1, Hc, dadd_fin.
  destruct (rnd (a + c)) as [s | | |] eqn:Hs; try reflexivity.
  rewrite dsub_fin, Rminus_0_r, (rnd_idem _ _ Hs); reflexivity.
Qed.

Lemma log_term_unit_propto (cy cmu cs : bool) (y : R) (a : double)
  (n : nat) :
  rnd y = Fin y ->
  log_term cr_libm false false (Arg cy (Scalar (Fin y)))
    (Arg cmu (Scalar (Fin 0))) (Arg cs (Scalar (Fin 1))) a n
  = (a + Fin (-0.5) * (Fin y * Fin y))%D.
Proof.
  intros Hy; unfold log_term; rewrite z_at_unit by exact Hy; reflexivity.
Qed.

Lemma rnd_large : rnd 134217728 = Fin 134217728.
Proof. apply (rnd_IZR 134217728); reflexivity. Qed.

(** C8, as stated, fails: with [y1 = 0], [y2 = 2^27], [mu = 0] and
    [sigma = 1] the call on the vector adds the constant twice before the
    term [-2^53] of [y2], which gives [-2^53 - 2], while each of the two
    calls on a scalar adds it once, the call on [y2] loses it to rounding,
    and the sum of their results is [-2^53].  The result depends on the
    logarithm of the library only through [-1 <= -0.5 * log (2 pi) <=
    -3/4]. *)
Lemma normal_log_broadcast_not_additive :
  exists r r1 r2,
    normal_log cr_libm false (Arg true (Vector [Fin 0; Fin 134217728]))
      (constant 0) (constant 1) = Ok r
    /\ normal_log cr_libm false (constant 0) (constant 0) (constant 1)
       = Ok r1
    /\ normal_log cr_libm false (constant 134217728) (constant 0)
         (constant 1) = Ok r2
    /\ val r = Fin (- bpow 53 - 2)
    /\ (val r1 + val r2)%D = Fin (- bpow 53)
    /\ val r <> (val r1 + val r2)%D.
Proof.
  destruct NEG_LOG_SQRT_TWO_PI_bounds as (c & Hc & Hcb & Hcr).
  assert (Hcc : rnd c = Fin c)
    by (apply rnd_id; [exact Hcr | apply Rabs_def1; small_bound]).
  assert (H1 : log_term cr_libm true true (constant 0) (constant 0)
                 (constant 1) (Fin 0) 0 = Fin c).
  { unfold constant; rewrite (log_term_unit _ _ _ 0 0 c) by
      (exact rnd_0 || exact Hc).
    rewrite Rplus_0_l, Hcc, half_square_0, dadd_fin, Rplus_0_r.
    exact Hcc. }
  assert (H2 : log_term cr_libm true true (constant 134217728) (constant 0)
                 (constant 1) (Fin 0) 0 = Fin (- bpow 53)).
  { unfold constant; rewrite (log_term_unit _ _ _ _ 0 c) by
      (exact rnd_large || exact Hc).
    rewrite Rplus_0_l, Hcc, half_square_large, dadd_fin.
    apply absorbed_term; lra. }
  assert (H3 : log_term cr_libm true true (constant 134217728) (constant 0)
                 (constant 1) (Fin c) 0 = Fin (- bpow 53 - 2)).
  { unfold constant; rewrite (log_term_unit _ _ _ _ c c) by
      (exact rnd_large || exact Hc).
    replace (c + c) with (2 * c) by lra.
    rewrite rnd_id
      by (try apply representable_twice; try apply Rabs_def1;
          try small_bound; exact Hcr).
    rewrite half_square_large, dadd_fin.
    apply carried_term; lra. }
  assert (Hpos : (Fin 1 >? Fin 0)%D = true)
    by (unfold dgt, dlt; apply Rltb_true; lra).
  destruct (normal_log_pair_value cr_libm true true true (Fin 0)
              (Fin 134217728) (Fin 0) (Fin 1))
    as (r & Hr & Hv); try reflexivity; [exact Hpos |].
  destruct (normal_log_scalar_value cr_libm false true true true (Fin 0)
              (Fin 0) (Fin 1))
    as (r1 & Hr1 & Hv1); try reflexivity; [exact Hpos |].
  destruct (normal_log_scalar_value cr_libm false true true true
              (Fin 134217728) (Fin 0) (Fin 1))
    as (r2 & Hr2 & Hv2); try reflexivity; [exact Hpos |].
  cbn [include_summand forallb negb andb orb] in Hv1, Hv2.
  exists r, r1, r2.
  fold (constant 0) in *; fold (constant 1) in *;
    fold (constant 134217728) in *.
  rewrite H1 in Hv, Hv1; rewrite H3 in Hv; rewrite H2 in Hv2.
  rewrite Hv, Hv1, Hv2, dadd_fin, absorbed_term by lra.
  repeat (split; [assumption || reflexivity |]).
  intros [= He]; lra.
Qed.

(** The reciprocal of [2^-1070] exceeds every member of the format. *)
Lemma tiny_scale_inverse : (Fin 1 / Fin (bpow (-1070)))%D = PInf.
Proof.
  pose proof (bpow_gt_0 (-1070)) as Hp.
  rewrite ddiv_fin by lra.
  change (bpow (-1070)) with (bpow (- (1070))); rewrite bpow_neg.
  apply rnd_overflow.
  replace (1 / / bpow 1070) with (bpow 1070)
    by (pose proof (bpow_gt_0 1070); field; lra).
  apply bpow_le; lia.
Qed.

Lemma tiny_scale_checks (cy cmu cs : bool) :
  normal_log_checks (Arg cy (Scalar (Fin 0))) (Arg cmu (Scalar (Fin 0)))
    (Arg cs (Scalar (Fin (bpow (-1070))))) = Ok tt.
Proof.
  apply normal_log_checks_scalars; try reflexivity.
  unfold dgt, dlt; apply Rltb_true, bpow_gt_0.
Qed.

Lemma tiny_scale_z (cy cmu cs : bool) (n : nat) :
  z_at (Arg cy (Scalar (Fin 0))) (Arg cmu (Scalar (Fin 0)))
    (Arg cs (Scalar (Fin (bpow (-1070))))) n = NaN.
Proof.
  unfold z_at; rewrite !vv_get_scalar, tiny_scale_inverse.
  rewrite dsub_fin, Rminus_0_r, rnd_0; cbn; unfold inf_times.
  rewrite Rltb_false by lra; reflexivity.
Qed.

Lemma tiny_scale_term (M : libm) (c s cy cmu cs : bool) (a : double)
  (n : nat) :
  log_term M c s (Arg cy (Scalar (Fin 0))) (Arg cmu (Scalar (Fin 0)))
    (Arg cs (Scalar (Fin (bpow (-1070))))) a n = NaN.
Proof.
  unfold log_term; rewrite tiny_scale_z.
  change (NaN * NaN)%D with NaN; rewrite dmul_nan_r; apply dadd_nan_r.
Qed.


Lemma tiny_scale_dmu (cy cmu cs : bool) (n : nat) :
  dmu_at (Arg cy (Scalar (Fin 0))) (Arg cmu (Scalar (Fin 0)))
    (Arg cs (Scalar (Fin (bpow (-1070))))) n = NaN.
Proof. unfold dmu_at; rewrite tiny_scale_z; apply dmul_nan_r. Qed.

Lemma tiny_scale_dsigma (cy cmu cs : bool) (n : nat) :
  dsigma_at (Arg cy (Scalar (Fin 0))) (Arg cmu (Scalar (Fin 0)))
    (Arg cs (Scalar (Fin (bpow (-1070))))) n = NaN.
Proof.
  unfold dsigma_at; rewrite tiny_scale_z.
  change (NaN * NaN)%D with NaN; rewrite dmul_nan_r; apply dadd_nan_r.
Qed.

(** C4, as stated, fails: at tracked [y = 0], [mu = 0] and
    [sigma = 2^-1070] the quotients of the claim are [z = 0 / sigma = 0]
    and [- z / sigma = z / sigma = 0], while the call, which multiplies by
    the overflowed [1 / sigma], leaves in every slot a value that is not
    a number. *)
Lemma normal_log_partials_nan_at_tiny_scale :
  representable (bpow (-1070))
  /\ normal_log_checks (tracked 0) (tracked 0) (tracked (bpow (-1070)))
     = Ok tt
  /\ normal_log cr_libm false (tracked 0) (tracked 0)
       (tracked (bpow (-1070))) = Ok (Ret NaN [NaN] [NaN] [NaN])
  /\ ((- ((Fin 0 - Fin 0) / Fin (bpow (-1070)))) / Fin (bpow (-1070)))%D
     = Fin 0
  /\ (((Fin 0 - Fin 0) / Fin (bpow (-1070))) / Fin (bpow (-1070)))%D
     = Fin 0.
Proof.
  pose proof (bpow_gt_0 (-1070)) as Hp.
  assert (Hz : ((Fin 0 - Fin 0) / Fin (bpow (-1070)))%D = Fin 0).
  { rewrite dsub_fin, Rminus_0_r, rnd_0, ddiv_fin by lra.
    replace (0 / bpow (-1070)) with 0 by (field; lra); apply rnd_0. }
  split; [apply representable_bpow; lia |].
  split; [apply tiny_scale_checks |].
  split; [| split].
  - unfold tracked.
    rewrite normal_log_valid by (reflexivity || apply tiny_scale_checks).
    cbn [is_constant_struct include_summand negb orb max_size stan_length
           values data List.length Nat.max seq fold_left acc map slot_fold
           vv_index Nat.eqb].
    rewrite tiny_scale_term, tiny_scale_dmu, tiny_scale_dsigma.
    rewrite dsub_nan_r, !dadd_nan_r; reflexivity.
  - rewrite Hz; cbn [dneg]; rewrite ddiv_fin by lra.
    replace (- 0 / bpow (-1070)) with 0 by (field; lra); apply rnd_0.
  - rewrite Hz, ddiv_fin by lra.
    replace (0 / bpow (-1070)) with 0 by (field; lra); apply rnd_0.
Qed.

(** C5, as stated, fails twice.  With the three arguments constant and
    [y] not a number the proportional call raises an error instead of
    returning 0.  With [y] tracked, [mu = 0] and [sigma = 1] constant, the
    two modes differ by the constant [-0.5 * log (2 pi)] at [y = 0] and by
    nothing at [y = 2^27], where the constant is lost to rounding: the
    offset depends on [y]. *)
Lemma normal_log_propto_offset_varies :
  normal_log cr_libm true (Arg true (Scalar NaN)) (constant 0) (constant 1)
  = Err (DomainError "stan::prob::normal_log(%1%)" "Random variable" NaN)
  /\ exists rt0 rf0 rt1 rf1,
       normal_log cr_libm true (tracked 0) (constant 0) (constant 1)
       = Ok rt0
       /\ normal_log cr_libm false (tracked 0) (constant 0) (constant 1)
          = Ok rf0
       /\ normal_log cr_libm true (tracked 134217728) (constant 0)
            (constant 1) = Ok rt1
       /\ normal_log cr_libm false (tracked 134217728) (constant 0)
            (constant 1) = Ok rf1
       /\ val rt0 = Fin 0
       /\ val rf0 = NEG_LOG_SQRT_TWO_PI cr_libm
       /\ NEG_LOG_SQRT_TWO_PI cr_libm <> Fin 0
       /\ val rt1 = Fin (- bpow 53)
       /\ val rf1 = Fin (- bpow 53).
Proof.
  split; [reflexivity |].
  destruct NEG_LOG_SQRT_TWO_PI_bounds as (c & Hc & Hcb & Hcr).
  assert (Hcc : rnd c = Fin c)
    by (apply rnd_id; [exact Hcr | apply Rabs_def1; small_bound]).
  assert (Hpos : (Fin 1 >? Fin 0)%D = true)
    by (unfold dgt, dlt; apply Rltb_true; lra).
  destruct (normal_log_scalar_value cr_libm true false true true (Fin 0)
              (Fin 0) (Fin 1))
    as (rt0 & Ht0 & Vt0); try reflexivity; [exact Hpos |].
  destruct (normal_log_scalar_value cr_libm false false true true (Fin 0)
              (Fin 0) (Fin 1))
    as (rf0 & Hf0 & Vf0); try reflexivity; [exact Hpos |].
  destruct (normal_log_scalar_value cr_libm true false true true
              (Fin 134217728) (Fin 0) (Fin 1))
    as (rt1 & Ht1 & Vt1); try reflexivity; [exact Hpos |].
  destruct (normal_log_scalar_value cr_libm false false true true
              (Fin 134217728) (Fin 0) (Fin 1))
    as (rf1 & Hf1 & Vf1); try reflexivity; [exact Hpos |].
  cbn [include_summand existsb negb orb] in Vt0, Vf0, Vt1, Vf1.
  rewrite log_term_unit_propto in Vt0 by exact rnd_0.
  rewrite log_term_unit_propto in Vt1 by exact rnd_large.
  rewrite (log_term_unit _ _ _ _ 0 c) in Vf0 by (exact rnd_0 || exact Hc).
  rewrite (log_term_unit _ _ _ _ 0 c) in Vf1
    by (exact rnd_large || exact Hc).
  rewrite Rplus_0_l, Hcc in Vf0, Vf1.
  rewrite half_square_0, dadd_fin, Rplus_0_r in Vt0, Vf0.
  rewrite rnd_0 in Vt0; rewrite Hcc in Vf0.
  rewrite half_square_large, dadd_fin in Vt1, Vf1.
  rewrite Rplus_0_l in Vt1.
  rewrite absorbed_term in Vf1 by lra.
  pose proof (absorbed_term 0 ltac:(lra)) as Hb; rewrite Rplus_0_l in Hb.
  rewrite Hb in Vt1.
  exists rt0, rf0, rt1, rf1; rewrite Hc.
  repeat (split; [assumption |]).
  split; [intros [= He]; lra |].
  split; assumption.
Qed.

(** * Further properties *)

(** ** [check_3F2_converges] *)

Lemma is_undefined_3F2_zero (b1 b2 : double) :
  is_undefined_3F2 b1 b2 0 = false.
Proof.
  assert (H : forall b,
             (b <? Fin 0)%D && deq (dfloor b) b && dle (dfabs b) (Fin 0)
             = false).
  { intros [x | | |]; cbn; try reflexivity.
    unfold Rltb; destruct (Rlt_dec x 0) as [Hx | Hx]; [| reflexivity].
    rewrite andb_true_l.
    destruct (Rlt_dec 0 (Rabs x)) as [Ha | Ha];
      [apply andb_false_r |].
    exfalso; apply Ha, Rabs_pos_lt; lra. }
  unfold is_undefined_3F2; cbn [IZR]; rewrite !H; reflexivity.
Qed.

(** X1.  When none of [a1], [a2], [a3] passes the test for a negative
    integer, the check returns exactly when [|z| < 1], or [|z| = 1] and
    [b1 + b2 > a1 + a2 + a3], and throws otherwise.  The values of [b1]
    and [b2] play no other part: a negative integer or a NaN there is
    accepted, and so is a NaN among [a1], [a2], [a3]. *)
Theorem check_3F2_series (function : string) (a1 a2 a3 b1 b2 z : double) :
  is_polynomial_3F2 a1 a2 a3 = false ->
  check_3F2_converges function a1 a2 a3 b1 b2 z
  = Some (if (dfabs z <? Fin 1)%D
             || (deq (dfabs z) (Fin 1) && (b1 + b2 >? a1 + a2 + a3)%D)
          then Ok tt
          else Err (DomainError function "hypergeometric function 3F2" z)).
Proof.
  intros Hp; unfold check_3F2_converges, num_terms_3F2.
  rewrite Hp, is_undefined_3F2_zero; cbn [andb negb].
  rewrite !andb_true_r.
  destruct (dfabs z <? Fin 1)%D; [reflexivity |].
  destruct (deq (dfabs z) (Fin 1) && (b1 + b2 >? a1 + a2 + a3)%D);
    reflexivity.
Qed.

(** A NaN [a1] and the negative integer [b1 = -2] at [z = 1/2]: the
    check returns. *)
Lemma check_3F2_series_witness :
  check_3F2_converges "f" NaN (Fin 1) (Fin 1) (Fin (-2)) (Fin 1) (Fin 0.5)
  = Some (Ok tt).
Proof.
  rewrite check_3F2_series.
  - cbn; unfold Rabs; destruct (Rcase_abs 0.5); try lra.
    rewrite Rltb_true by lra; reflexivity.
  - unfold is_polynomial_3F2; cbn; real_cmp; reflexivity.
Defined.

Lemma is_negative_integer_fin (x : R) :
  is_negative_integer (Fin x) = true ->
  exists k : Z, (1 <= k)%Z /\ Rabs x = IZR k /\ Zfloor (Rabs x) = k.
Proof.
  unfold is_negative_integer; cbn; intros H.
  apply andb_prop in H as [Hneg Hint].
  unfold Rltb in Hneg; destruct (Rlt_dec x 0) as [Hx |]; [| discriminate].
  unfold Reqb in Hint;
    destruct (Req_dec_T (IZR (Zfloor x)) x) as [Hm |]; [| discriminate].
  exists (- Zfloor x)%Z.
  assert (Hlt : (Zfloor x < 0)%Z) by (apply lt_IZR; lra).
  assert (Habs : Rabs x = IZR (- Zfloor x)).
  { rewrite Rabs_left by exact Hx; rewrite opp_IZR, Hm; reflexivity. }
  repeat split; [lia | exact Habs |].
  rewrite Habs; apply ZfloorZ.
Qed.

Lemma negative_integer_size_nonneg (a : double) :
  (0 <= negative_integer_size a)%Z.
Proof.
  unfold negative_integer_size.
  destruct (is_negative_integer a) eqn:H; [| lia].
  destruct a as [x | | |]; try lia.
  destruct (is_negative_integer_fin x H) as (k & Hk & _ & ->); lia.
Qed.

(** One of the three updates of [num_terms]: the maximum with the
    magnitude of a negative integer. *)
Lemma num_terms_update (a : double) (n : Z) :
  fits_int a -> (0 <= n)%Z ->
  (if (a <? Fin 0)%D && deq (dfloor a) a && (dfabs a >? Fin (IZR n))%D
   then to_int (dfloor (dfabs a)) else Some n)
  = Some (Z.max n (negative_integer_size a)).
Proof.
  intros Hfit Hn; unfold negative_integer_size.
  fold (is_negative_integer a).
  destruct (is_negative_integer a) eqn:Hneg; cbn [andb];
    [| f_equal; lia].
  destruct a as [x | | |]; try discriminate; [| destruct Hfit].
  destruct (is_negative_integer_fin x Hneg) as (k & Hk & Habs & Hfl).
  cbn in Hfit; rewrite Hfl; cbn [dfabs dfloor dgt dlt]; rewrite Hfl.
  unfold Rltb at 1; destruct (Rlt_dec (IZR n) (Rabs x)) as [Hgt | Hle].
  - rewrite Habs in Hgt, Hfit; apply lt_IZR in Hgt; apply le_IZR in Hfit.
    unfold to_int; rewrite Rltb_false by (apply Rle_not_lt, IZR_le; lia).
    rewrite ZfloorZ.
    destruct (Z.leb_spec (-2147483648) k); [| lia].
    destruct (Z.leb_spec k 2147483647); [| lia].
    cbn [andb]; f_equal; lia.
  - rewrite Habs in Hle; f_equal.
    assert ((k <= n)%Z) by (apply le_IZR; lra); lia.
Qed.

(** X2.  When one of [a1], [a2], [a3] passes the test for a negative
    integer and the three fit in an [int], [num_terms] is the largest
    magnitude among those that pass, and the outcome does not depend on
    [z]: the check throws when [b1] or [b2] is a negative integer of
    magnitude at most [num_terms], and returns otherwise. *)
Theorem check_3F2_polynomial (function : string)
  (a1 a2 a3 b1 b2 z : double) :
  is_polynomial_3F2 a1 a2 a3 = true ->
  fits_int a1 -> fits_int a2 -> fits_int a3 ->
  let num_terms :=
    Z.max (negative_integer_size a1)
      (Z.max (negative_integer_size a2) (negative_integer_size a3)) in
  num_terms_3F2 a1 a2 a3 = Some num_terms
  /\ check_3F2_converges function a1 a2 a3 b1 b2 z
     = Some (if is_undefined_3F2 b1 b2 num_terms
             then Err (DomainError function
                         "hypergeometric function 3F2" z)
             else Ok tt).
Proof.
  intros Hp F1 F2 F3 num_terms.
  pose proof (negative_integer_size_nonneg a1) as N1.
  pose proof (negative_integer_size_nonneg a2) as N2.
  pose proof (negative_integer_size_nonneg a3) as N3.
  assert (Hnum : num_terms_3F2 a1 a2 a3 = Some num_terms).
  { unfold num_terms_3F2; rewrite Hp.
    rewrite (num_terms_update a1 0) by (assumption || lia).
    rewrite (num_terms_update a2) by (assumption || lia).
    rewrite (num_terms_update a3) by (assumption || lia).
    f_equal; subst num_terms; lia. }
  split; [exact Hnum |].
  unfold check_3F2_converges; rewrite Hnum, Hp.
  destruct (is_undefined_3F2 b1 b2 num_terms); cbn [andb negb];
    [rewrite !andb_false_r |]; reflexivity.
Qed.

(** [a1 = -3] and [a2 = -5]: [num_terms] is 5, so [b1 = -4] makes the
    check throw, at [z = 0] as anywhere. *)
Lemma check_3F2_polynomial_witness :
  num_terms_3F2 (Fin (-3)) (Fin (-5)) (Fin 1) = Some 5%Z
  /\ check_3F2_converges "f" (Fin (-3)) (Fin (-5)) (Fin 1)
       (Fin (-4)) (Fin 1) (Fin 0)
     = Some (Err (DomainError "f" "hypergeometric function 3F2" (Fin 0))).
Proof.
  assert (F3 : Zfloor (-3) = (-3)%Z) by apply (ZfloorZ (-3)).
  assert (F5 : Zfloor (-5) = (-5)%Z) by apply (ZfloorZ (-5)).
  assert (F4 : Zfloor (-4) = (-4)%Z) by apply (ZfloorZ (-4)).
  assert (A3 : Rabs (-3) = 3) by (rewrite Rabs_left; lra).
  assert (A5 : Rabs (-5) = 5) by (rewrite Rabs_left; lra).
  assert (A4 : Rabs (-4) = 4) by (rewrite Rabs_left; lra).
  assert (S3 : negative_integer_size (Fin (-3)) = 3%Z).
  { unfold negative_integer_size, is_negative_integer; cbn.
    rewrite F3, A3; real_cmp; apply (ZfloorZ 3). }
  assert (S5 : negative_integer_size (Fin (-5)) = 5%Z).
  { unfold negative_integer_size, is_negative_integer; cbn.
    rewrite F5, A5; real_cmp; apply (ZfloorZ 5). }
  assert (S1 : negative_integer_size (Fin 1) = 0%Z).
  { unfold negative_integer_size, is_negative_integer; cbn.
    real_cmp; reflexivity. }
  destruct (check_3F2_polynomial "f" (Fin (-3)) (Fin (-5)) (Fin 1)
              (Fin (-4)) (Fin 1) (Fin 0)) as [Hn Hc].
  - unfold is_polynomial_3F2; cbn; rewrite F3; real_cmp; reflexivity.
  - cbn; rewrite A3; lra.
  - cbn; rewrite A5; lra.
  - cbn; rewrite Rabs_right; lra.
  - rewrite S3, S5, S1 in Hn, Hc; cbn [Z.max Z.compare Pos.compare
                                        Pos.compare_cont] in Hn, Hc.
    split; [exact Hn |].
    rewrite Hc; unfold is_undefined_3F2; cbn.
    rewrite F4, A4; real_cmp; reflexivity.
Defined.

(** ** The cumulative functions on scalars *)

Lemma normal_cdf_checks_scalars (f : string) (cy cmu cs : bool)
  (y mu sigma : double) :
  isnan y = false -> isfinite mu = true -> isnan sigma = false ->
  (sigma >? Fin 0)%D = true ->
  normal_cdf_checks f (Arg cy (Scalar y)) (Arg cmu (Scalar mu))
    (Arg cs (Scalar sigma)) = Ok tt.
Proof.
  intros Hy Hm Hn Hs.
  unfold normal_cdf_checks, check_not_nan, check_finite, check_positive.
  rewrite !check_scalar, Hy, Hm, Hn, Hs; reflexivity.
Qed.

Lemma normal_cdf_checks_pair (f : string) (cy cmu cs : bool)
  (y1 y2 mu sigma : double) :
  isnan y1 = false -> isnan y2 = false -> isfinite mu = true ->
  isnan sigma = false -> (sigma >? Fin 0)%D = true ->
  normal_cdf_checks f (Arg cy (Vector [y1; y2])) (Arg cmu (Scalar mu))
    (Arg cs (Scalar sigma)) = Ok tt.
Proof.
  intros H1 H2 Hm Hn Hs.
  unfold normal_cdf_checks, check_not_nan, check_finite, check_positive.
  rewrite !check_scalar, Hm, Hn, Hs; cbn [values data check_all].
  rewrite H1, H2; reflexivity.
Qed.

(** The first factor 1 of the product leaves the value of an element as
    it is: the value is 0, 1 or a rounded product. *)
Lemma normal_cdf_cdf__unit (M : libm) (sd : double) :
  (Fin 1 * normal_cdf_cdf_ M sd)%D = normal_cdf_cdf_ M sd.
Proof.
  unfold normal_cdf_cdf_.
  destruct (dlt sd _); [rewrite dmul_fin, Rmult_1_l; apply rnd_0 |].
  destruct (dlt sd _); [apply dmul_1_l |].
  destruct (dgt sd _); [rewrite dmul_fin, Rmult_1_l; apply rnd_1 |].
  apply dmul_1_l.
Qed.

(** X11.  For scalars [y1], [y2], [mu] and [sigma] that pass the checks,
    [normal_cdf] on the two-element vector [[y1, y2]] returns the product
    of the values it returns on [y1] and on [y2], and [normal_cdf_log] and
    [normal_ccdf_log] return the sum of theirs. *)
Theorem normal_cdf_broadcast (M : libm) (cy cmu cs : bool)
  (y1 y2 mu sigma : double) :
  isnan y1 = false -> isnan y2 = false -> isfinite mu = true ->
  isnan sigma = false -> (sigma >? Fin 0)%D = true ->
  let Y := Arg cy (Vector [y1; y2]) in
  let Y1 := Arg cy (Scalar y1) in
  let Y2 := Arg cy (Scalar y2) in
  let Mu := Arg cmu (Scalar mu) in
  let S := Arg cs (Scalar sigma) in
  (exists r r1 r2,
      normal_cdf M Y Mu S = Ok r /\ normal_cdf M Y1 Mu S = Ok r1
      /\ normal_cdf M Y2 Mu S = Ok r2 /\ val r = (val r1 * val r2)%D)
  /\ (exists r r1 r2,
         normal_cdf_log M Y Mu S = Ok r /\ normal_cdf_log M Y1 Mu S = Ok r1
         /\ normal_cdf_log M Y2 Mu S = Ok r2
         /\ val r = (val r1 + val r2)%D)
  /\ (exists r r1 r2,
         normal_ccdf_log M Y Mu S = Ok r
         /\ normal_ccdf_log M Y1 Mu S = Ok r1
         /\ normal_ccdf_log M Y2 Mu S = Ok r2
         /\ val r = (val r1 + val r2)%D).
Proof.
  intros H1 H2 Hm Hn Hs Y Y1 Y2 Mu S; subst Y Y1 Y2 Mu S.
  unfold normal_cdf, normal_cdf_log, normal_ccdf_log.
  rewrite !normal_cdf_checks_scalars, !normal_cdf_checks_pair
    by assumption.
  cbn [any_empty stan_length values data List.length Nat.eqb negb andb
         bind].
  split; [| split]; do 3 eexists; repeat (split; [reflexivity |]).
  - cbn [val]; unfold normal_cdf_loop.
    cbn [max_size stan_length values data List.length Nat.max seq
           fold_left].
    unfold normal_cdf_body; cbn [val].
    rewrite !normal_cdf_cdf__unit; reflexivity.
  - cbn [max_size stan_length values data List.length Nat.max seq
           fold_left].
    unfold normal_cdf_log_body; cbn [val].
    rewrite !dadd_0_l; reflexivity.
  - cbn [max_size stan_length values data List.length Nat.max seq
           fold_left].
    unfold normal_ccdf_log_body; cbn [val].
    rewrite !dadd_0_l; reflexivity.
Qed.

Lemma normal_cdf_broadcast_witness :
  exists r r1 r2,
    normal_cdf cr_libm (Arg true (Vector [Fin 1; Fin 3]))
      (Arg false (Scalar (Fin 2))) (Arg false (Scalar (Fin 4))) = Ok r
    /\ normal_cdf cr_libm (Arg true (Scalar (Fin 1)))
         (Arg false (Scalar (Fin 2))) (Arg false (Scalar (Fin 4))) = Ok r1
    /\ normal_cdf cr_libm (Arg true (Scalar (Fin 3)))
         (Arg false (Scalar (Fin 2))) (Arg false (Scalar (Fin 4))) = Ok r2
    /\ val r = (val r1 * val r2)%D.
Proof.
  destruct (normal_cdf_broadcast cr_libm true false false
              (Fin 1) (Fin 3) (Fin 2) (Fin 4)) as [H _];
    try reflexivity; [| exact H].
  unfold dgt, dlt; apply Rltb_true; lra.
Defined.

(** ** Invariance of [normal_log] *)

Lemma finite_valid_nonempty (y mu sigma : argument)
  (ys mus sigmas : list R) :
  finite_valid y mu sigma ys mus sigmas -> any_empty y mu sigma = false.
Proof.
  intros valid.
  pose proof (fv_nonempty _ _ _ _ _ _ valid).
  pose proof (fv_len_y _ _ _ _ _ _ valid).
  pose proof (fv_len_mu _ _ _ _ _ _ valid).
  pose proof (fv_len_sigma _ _ _ _ _ _ valid).
  apply nonempty_any_empty; lia.
Qed.

Lemma finite_valid_checks (y mu sigma : argument) (ys mus sigmas : list R) :
  finite_valid y mu sigma ys mus sigmas ->
  normal_log_checks y mu sigma = Ok tt.
Proof.
  intros valid.
  unfold normal_log_checks, check_not_nan, check_finite, check_positive.
  rewrite (fv_y _ _ _ _ _ _ valid), (fv_mu _ _ _ _ _ _ valid),
    (fv_sigma _ _ _ _ _ _ valid).
  rewrite !check_all_ok; cbn [bind].
  - apply check_consistent_sizes_ok; apply valid.
  - apply forallb_forall; intros d Hd; apply in_map_iff in Hd.
    destruct Hd as (s & <- & Hs); unfold dgt, dlt.
    apply Rltb_true, (fv_pos _ _ _ _ _ _ valid), Hs.
  - apply forallb_forall; intros d Hd; apply in_map_iff in Hd.
    destruct Hd as (s & <- & Hs); reflexivity.
  - apply forallb_forall; intros d Hd; apply in_map_iff in Hd.
    destruct Hd as (s & <- & Hs); reflexivity.
Qed.

Lemma finite_valid_pair (cy cmu cs : bool) (y1 y2 mu sigma : R) :
  0 < sigma ->
  finite_valid (Arg cy (Vector [Fin y1; Fin y2])) (Arg cmu (Scalar (Fin mu)))
    (Arg cs (Scalar (Fin sigma))) [y1; y2] [mu] [sigma].
Proof.
  intros Hs; split; try reflexivity; try (cbn; lia).
  intros s [<- | []]; exact Hs.
Qed.

Lemma finite_valid_shift (y mu sigma y' mu' : argument)
  (ys mus sigmas : list R) (c : R) :
  finite_valid y mu sigma ys mus sigmas ->
  values y' = map Fin (map (Rplus c) ys) ->
  values mu' = map Fin (map (Rplus c) mus) ->
  finite_valid y' mu' sigma (map (Rplus c) ys) (map (Rplus c) mus) sigmas
  /\ stan_length y' = stan_length y /\ stan_length mu' = stan_length mu.
Proof.
  intros [Hy Hm Hsg Hpos Hne Ly Lm Ls] Hy' Hm'.
  assert (Ey : stan_length y' = stan_length y)
    by (unfold stan_length; rewrite Hy, Hy', !length_map; reflexivity).
  assert (Em : stan_length mu' = stan_length mu)
    by (unfold stan_length; rewrite Hm, Hm', !length_map; reflexivity).
  split; [| split; assumption].
  split; unfold max_size in *; rewrite ?Ey, ?Em; assumption.
Qed.

(** Element [n] of a view over finite values, shifted. *)
Lemma vv_get_shifted (xs : list R) (c : R) (n : nat) :
  (exists x, vv_get (map Fin xs) n = Fin x
             /\ vv_get (map Fin (map (Rplus c) xs)) n = Fin (c + x))
  \/ (vv_get (map Fin xs) n = NaN
      /\ vv_get (map Fin (map (Rplus c) xs)) n = NaN).
Proof.
  unfold vv_get; rewrite !length_map.
  set (i := vv_index (List.length xs) n).
  destruct (Nat.lt_ge_cases i (List.length xs)) as [Hi | Hi].
  - left; exists (nth i xs 0); split.
    + rewrite (nth_indep _ NaN (Fin 0)) by (rewrite length_map; exact Hi).
      apply (map_nth Fin).
    + rewrite (nth_indep _ NaN (Fin (c + 0)))
        by (rewrite !length_map; exact Hi).
      rewrite (map_nth Fin), (map_nth (Rplus c)); reflexivity.
  - right; split; apply nth_overflow; rewrite !length_map; exact Hi.
Qed.

(** The difference [y[n] - mu[n]] is the same after the shift: the exact
    differences agree, and so do their roundings. *)
Lemma difference_shift (ys mus : list R) (c : R) (n : nat) :
  (vv_get (map Fin (map (Rplus c) ys)) n
   - vv_get (map Fin (map (Rplus c) mus)) n)%D
  = (vv_get (map Fin ys) n - vv_get (map Fin mus) n)%D.
Proof.
  destruct (vv_get_shifted ys c n) as [(a & -> & ->) | [-> ->]];
    destruct (vv_get_shifted mus c n) as [(b & -> & ->) | [-> ->]];
    try reflexivity.
  rewrite !dsub_fin; f_equal; lra.
Qed.

(** X12.  On finite valid arguments, adding one constant to every
    element of [y] and of [mu] changes nothing of what [normal_log]
    returns: neither the value nor any stored derivative, in either
    mode. *)
Theorem normal_log_shift_invariant (M : libm) (propto : bool)
  (y mu sigma y' mu' : argument) (ys mus sigmas : list R) (c : R) :
  finite_valid y mu sigma ys mus sigmas ->
  values y' = map Fin (map (Rplus c) ys) ->
  values mu' = map Fin (map (Rplus c) mus) ->
  is_constant_struct y' = is_constant_struct y ->
  is_constant_struct mu' = is_constant_struct mu ->
  normal_log M propto y' mu' sigma = normal_log M propto y mu sigma.
Proof.
  intros valid Hy' Hm' Cy Cm.
  destruct (finite_valid_shift y mu sigma y' mu' ys mus sigmas c
              valid Hy' Hm') as (valid' & Ey & Em).
  rewrite (normal_log_valid M propto y mu sigma
             (finite_valid_nonempty _ _ _ _ _ _ valid)
             (finite_valid_checks _ _ _ _ _ _ valid)).
  rewrite (normal_log_valid M propto y' mu' sigma
             (finite_valid_nonempty _ _ _ _ _ _ valid')
             (finite_valid_checks _ _ _ _ _ _ valid')).
  assert (HN : max_size y' mu' sigma = max_size y mu sigma)
    by (unfold max_size; rewrite Ey, Em; reflexivity).
  rewrite HN, Ey, Em, Cy, Cm.
  assert (Hz : forall n, z_at y' mu' sigma n = z_at y mu sigma n).
  { intros n; unfold z_at.
    rewrite Hy', Hm', (fv_y _ _ _ _ _ _ valid), (fv_mu _ _ _ _ _ _ valid).
    rewrite difference_shift; reflexivity. }
  assert (Hslot : forall len N k f g,
             (forall n d, f n d = g n d) ->
             slot_fold len N k f = slot_fold len N k g).
  { intros len N k f g Hfg; unfold slot_fold; apply fold_left_pointwise.
    intros d n; rewrite Hfg; reflexivity. }
  destruct (include_summand propto _); [| reflexivity].
  do 2 f_equal.
  - apply fold_left_pointwise; intros d n; unfold log_term.
    rewrite Hz; reflexivity.
  - unfold acc; destruct (is_constant_struct y); [reflexivity |].
    apply map_ext; intros k; apply Hslot; intros n d.
    unfold dmu_at; rewrite Hz; reflexivity.
  - unfold acc; destruct (is_constant_struct mu); [reflexivity |].
    apply map_ext; intros k; apply Hslot; intros n d.
    unfold dmu_at; rewrite Hz; reflexivity.
  - unfold acc; destruct (is_constant_struct sigma); [reflexivity |].
    apply map_ext; intros k; apply Hslot; intros n d.
    unfold dsigma_at; rewrite Hz; reflexivity.
Qed.

Lemma normal_log_shift_invariant_witness :
  normal_log cr_libm false
    (Arg false (Vector [Fin (10 + 1); Fin (10 + 3)]))
    (Arg false (Scalar (Fin (10 + 2)))) (Arg true (Scalar (Fin 4)))
  = normal_log cr_libm false (Arg false (Vector [Fin 1; Fin 3]))
      (Arg false (Scalar (Fin 2))) (Arg true (Scalar (Fin 4))).
Proof.
  apply (normal_log_shift_invariant cr_libm false
           (Arg false (Vector [Fin 1; Fin 3])) (Arg false (Scalar (Fin 2)))
           (Arg true (Scalar (Fin 4))) _ _ [1; 3] [2] [4] 10);
    try reflexivity.
  apply finite_valid_pair; lra.
Defined.

(** ** The deep left tail of [normal_cdf] *)

Lemma nonfinite_inf_times (p : bool) (x : R) : nonfinite (inf_times p x).
Proof.
  unfold inf_times; destruct (Rltb 0 x); [destruct p; exact I |].
  destruct (Rltb x 0); [destruct p; exact I | exact I].
Qed.

Lemma nonfinite_div_zero (n : double) : nonfinite (n / Fin 0)%D.
Proof.
  destruct n as [x | | |]; cbn; try exact I.
  - rewrite Reqb_true by reflexivity; apply nonfinite_inf_times.
  - destruct (Rltb 0 0); exact I.
  - destruct (Rltb 0 0); exact I.
Qed.

Lemma nonfinite_div_positive (q s : double) :
  nonfinite q -> (s >? Fin 0)%D = true -> nonfinite (q / s)%D.
Proof.
  destruct q as [x | | |]; cbn; intros H Hs; try contradiction;
    destruct s as [r | | |]; try discriminate Hs; cbn; try exact I;
    destruct (Rltb r 0); exact I.
Qed.

Lemma nonfinite_add_0 (d : double) : nonfinite d -> nonfinite (Fin 0 + d)%D.
Proof. destruct d; cbn; intros H; try contradiction; exact I. Qed.

Lemma nonfinite_sub_0 (d : double) : nonfinite d -> nonfinite (Fin 0 - d)%D.
Proof. destruct d; cbn; intros H; try contradiction; exact I. Qed.

Lemma nonfinite_mul_negative (d sd t : double) :
  nonfinite d -> (sd <? t)%D = true -> (t <? Fin 0)%D = true ->
  nonfinite (d * sd)%D.
Proof.
  destruct d as [x | | |]; cbn; intros H Hsd Ht; try contradiction;
    try exact I;
    destruct sd as [s | | |]; try discriminate Hsd; try exact I;
    destruct t as [r | | |]; try discriminate Ht; try discriminate Hsd;
    cbn in *; try exact I; apply nonfinite_inf_times.
Qed.

Lemma nonfinite_mul_fin (d : double) (r : R) :
  nonfinite d -> nonfinite (d * Fin r)%D.
Proof.
  destruct d; cbn; intros H; try contradiction; try exact I;
    apply nonfinite_inf_times.
Qed.

Lemma nonfinite_mul_0 (d : double) : nonfinite d -> (d * Fin 0)%D = NaN.
Proof.
  destruct d; cbn; intros H; try contradiction; try reflexivity;
    unfold inf_times; rewrite Rltb_false by lra; reflexivity.
Qed.

Lemma tail_low_negative : (tail_low <? Fin 0)%D = true.
Proof.
  destruct thresholds_bounds as (a & b & c & Ha & _ & _ & Hab & _).
  rewrite Ha; unfold dlt; apply Rltb_true; lra.
Qed.

(** X8.  On tracked scalars that pass the checks, when the scaled
    difference that the program computes is below the first threshold
    [-37.5 * INV_SQRT_2], [normal_cdf] returns 0 and the three derivatives
    it stores are NaN, whatever the library computes: the common factor
    is divided by the zero value, and what was accumulated is then
    multiplied by it. *)
Theorem normal_cdf_left_tail (M : libm) (y mu sigma : double) :
  isnan y = false -> isfinite mu = true -> isnan sigma = false ->
  (sigma >? Fin 0)%D = true ->
  (scaled_diff_at (Arg false (Scalar y)) (Arg false (Scalar mu))
     (Arg false (Scalar sigma)) 0 <? Fin (-37.5) * INV_SQRT_2)%D = true ->
  normal_cdf M (Arg false (Scalar y)) (Arg false (Scalar mu))
    (Arg false (Scalar sigma))
  = Ok (Ret (Fin 0) [NaN] [NaN] [NaN]).
Proof.
  intros Hy Hm Hn Hs Htail.
  destruct SQRT_2_bounds as (s2 & Hs2 & _).
  unfold normal_cdf.
  rewrite normal_cdf_checks_scalars by assumption.
  unfold normal_cdf_loop, normal_cdf_rescale.
  cbn [any_empty stan_length values data List.length Nat.eqb negb andb bind
         max_size Nat.max seq fold_left is_constant_struct partials_of
         repeat].
  unfold normal_cdf_body.
  set (sd := scaled_diff_at _ _ _ 0) in *.
  cbn [is_constant_struct negb val d_x1 d_x2 d_x3].
  unfold normal_cdf_cdf_; rewrite Htail.
  unfold vv_get, vv_update;
    cbn [values data List.length vv_index Nat.eqb nth list_alter seq
           fold_left].
  rewrite dmul_fin, Rmult_1_l, rnd_0.
  set (n := (SQRT_TWO_OVER_PI * Fin 0.5 * m_exp M (- sd * sd))%D).
  pose proof (nonfinite_div_positive _ sigma (nonfinite_div_zero n) Hs)
    as Hrd.
  set (rd := (n / Fin 0 / sigma)%D) in *.
  rewrite (nonfinite_mul_0 _ (nonfinite_add_0 _ Hrd)).
  rewrite (nonfinite_mul_0 _ (nonfinite_sub_0 _ Hrd)).
  rewrite Hs2.
  rewrite (nonfinite_mul_0 _
             (nonfinite_sub_0 _
                (nonfinite_mul_fin _ s2
                   (nonfinite_mul_negative rd sd _ Hrd Htail
                      tail_low_negative)))).
  reflexivity.
Qed.

(** [y = -200] with [mu = 0] and [sigma = 1]: the scaled difference is
    below -100. *)
Lemma normal_cdf_left_tail_witness :
  normal_cdf cr_libm (Arg false (Scalar (Fin (-200))))
    (Arg false (Scalar (Fin 0))) (Arg false (Scalar (Fin 1)))
  = Ok (Ret (Fin 0) [NaN] [NaN] [NaN]).
Proof.
  apply normal_cdf_left_tail; try reflexivity.
  - unfold dgt, dlt; apply Rltb_true; lra.
  - destruct thresholds_bounds as (a & b & c & Ha & _ & _ & Hab & _).
    destruct SQRT_2_bounds as (s2 & Hs2 & Hsb).
    fold tail_low; rewrite Ha.
    unfold scaled_diff_at; rewrite !vv_get_scalar, Hs2.
    rewrite dsub_fin, Rminus_0_r, (rnd_IZR (-200)) by reflexivity.
    rewrite dmul_fin, Rmult_1_l.
    destruct (rnd_between_IZR 1 2 s2) as (s & Hs & Hsb');
      [reflexivity | reflexivity | exact Hsb |].
    rewrite Hs, ddiv_fin by lra.
    destruct (rnd_between_IZR (-200) (-100) (-200 / s)) as (q & Hq & Hqb);
      [reflexivity | reflexivity | |].
    + split.
      * apply Rle_trans with (-200 / 1); [lra |].
        unfold Rdiv; apply Rmult_le_compat_neg_l; [lra |].
        apply Rinv_le_contravar; lra.
      * apply Rle_trans with (-200 / 2); [| lra].
        unfold Rdiv; apply Rmult_le_compat_neg_l; [lra |].
        apply Rinv_le_contravar; lra.
    + rewrite Hq; unfold dlt; apply Rltb_true; lra.
Defined.

(** ** Infinite arguments *)

(** The values that the three functions return on scalars that pass the
    checks, from the scaled difference. *)
Lemma normal_cdf_scalar_vals (M : libm) (cy cmu cs : bool)
  (y mu sigma : double) :
  isnan y = false -> isfinite mu = true -> isnan sigma = false ->
  (sigma >? Fin 0)%D = true ->
  let sd :=
    scaled_diff_at (Arg cy (Scalar y)) (Arg cmu (Scalar mu))
      (Arg cs (Scalar sigma)) 0 in
  exists rc rl rcc,
    normal_cdf M (Arg cy (Scalar y)) (Arg cmu (Scalar mu))
      (Arg cs (Scalar sigma)) = Ok rc
    /\ normal_cdf_log M (Arg cy (Scalar y)) (Arg cmu (Scalar mu))
         (Arg cs (Scalar sigma)) = Ok rl
    /\ normal_ccdf_log M (Arg cy (Scalar y)) (Arg cmu (Scalar mu))
         (Arg cs (Scalar sigma)) = Ok rcc
    /\ val rc = normal_cdf_cdf_ M sd
    /\ val rl
       = (m_log M (Fin 0.5) + m_log M (normal_cdf_log_one_p_erf M sd))%D
    /\ val rcc
       = (m_log M (Fin 0.5) + m_log M (normal_ccdf_log_one_m_erf M sd))%D.
Proof.
  intros Hy Hm Hn Hs sd.
  unfold normal_cdf, normal_cdf_log, normal_ccdf_log.
  rewrite !normal_cdf_checks_scalars by assumption.
  do 3 eexists; repeat (split; [reflexivity |]).
  cbn [val]; unfold normal_cdf_loop.
  cbn [max_size stan_length values data List.length Nat.max seq fold_left].
  unfold normal_cdf_body, normal_cdf_log_body, normal_ccdf_log_body.
  cbn [val]; fold sd.
  split; [apply normal_cdf_cdf__unit | split; apply dadd_0_l].
Qed.

Lemma scaled_diff_at_infinite (cy cmu cs : bool) (mu sigma : R) :
  0 < sigma ->
  isfinite (Fin sigma * SQRT_2)%D = true ->
  scaled_diff_at (Arg cy (Scalar PInf)) (Arg cmu (Scalar (Fin mu)))
    (Arg cs (Scalar (Fin sigma))) 0 = PInf
  /\ scaled_diff_at (Arg cy (Scalar NInf)) (Arg cmu (Scalar (Fin mu)))
       (Arg cs (Scalar (Fin sigma))) 0 = NInf.
Proof.
  intros Hs Hfin; destruct SQRT_2_bounds as (s2 & Hs2 & Hsb).
  unfold scaled_diff_at; rewrite !vv_get_scalar.
  destruct (Fin sigma * SQRT_2)%D as [q | | |] eqn:Hq;
    try discriminate Hfin.
  rewrite Hs2, dmul_fin in Hq.
  apply rnd_fin in Hq as (Hq & _).
  assert (0 <= q)
    by (rewrite Hq; apply rnd_R_ge; [apply representable_0 | nra]).
  change (PInf - Fin mu)%D with PInf; change (NInf - Fin mu)%D with NInf.
  cbn; rewrite Rltb_false by lra; split; reflexivity.
Qed.

Lemma normal_cdf_cdf__infinite (M : libm) :
  normal_cdf_cdf_ M PInf = Fin 1 /\ normal_cdf_cdf_ M NInf = Fin 0.
Proof.
  destruct thresholds_bounds as (a & b & c & Ha & Hb & Hc & _).
  unfold normal_cdf_cdf_; fold tail_low tail_mid tail_high.
  rewrite Ha, Hb, Hc; split; reflexivity.
Qed.

Lemma tail_quantities_infinite (M : libm) :
  normal_cdf_log_one_p_erf M PInf = Fin 2
  /\ normal_cdf_log_one_p_erf M NInf = Fin 0
  /\ normal_ccdf_log_one_m_erf M PInf = Fin 0
  /\ normal_ccdf_log_one_m_erf M NInf = Fin 2.
Proof.
  destruct thresholds_bounds as (a & b & c & Ha & Hb & Hc & _).
  unfold normal_cdf_log_one_p_erf, normal_ccdf_log_one_m_erf.
  fold tail_low tail_mid tail_high.
  rewrite Ha, Hb, Hc; repeat split; reflexivity.
Qed.

(** X17.  The three tail functions accept an infinite [y] with a finite
    [mu] and a finite [sigma > 0] whose product with [SQRT_2] does not
    overflow, and they take the saturated branches: [normal_cdf] returns 1
    at plus infinity and 0 at minus infinity, [normal_cdf_log] returns
    [log 0.5 + log 2] and [log 0.5 + log 0], and [normal_ccdf_log] returns
    [log 0.5 + log 0] and [log 0.5 + log 2], the logarithms being those of
    the library. *)
Theorem tail_at_infinite_y (M : libm) (cy cmu cs : bool) (mu sigma : R) :
  0 < sigma ->
  isfinite (Fin sigma * SQRT_2)%D = true ->
  let Mu := Arg cmu (Scalar (Fin mu)) in
  let S := Arg cs (Scalar (Fin sigma)) in
  (exists r, normal_cdf M (Arg cy (Scalar PInf)) Mu S = Ok r
             /\ val r = Fin 1)
  /\ (exists r, normal_cdf M (Arg cy (Scalar NInf)) Mu S = Ok r
                /\ val r = Fin 0)
  /\ (exists r, normal_cdf_log M (Arg cy (Scalar PInf)) Mu S = Ok r
                /\ val r = (m_log M (Fin 0.5) + m_log M (Fin 2))%D)
  /\ (exists r, normal_cdf_log M (Arg cy (Scalar NInf)) Mu S = Ok r
                /\ val r = (m_log M (Fin 0.5) + m_log M (Fin 0))%D)
  /\ (exists r, normal_ccdf_log M (Arg cy (Scalar PInf)) Mu S = Ok r
                /\ val r = (m_log M (Fin 0.5) + m_log M (Fin 0))%D)
  /\ (exists r, normal_ccdf_log M (Arg cy (Scalar NInf)) Mu S = Ok r
                /\ val r = (m_log M (Fin 0.5) + m_log M (Fin 2))%D).
Proof.
  intros Hs Hfin Mu S; subst Mu S.
  assert (Hpos : (Fin sigma >? Fin 0)%D = true)
    by (unfold dgt, dlt; apply Rltb_true, Hs).
  destruct (scaled_diff_at_infinite cy cmu cs mu sigma Hs Hfin) as [Ep En].
  destruct (normal_cdf_cdf__infinite M) as [Cp Cn].
  destruct (tail_quantities_infinite M) as (Pp & Pn & Mp & Mn).
  destruct (normal_cdf_scalar_vals M cy cmu cs PInf (Fin mu) (Fin sigma))
    as (pc & pl & pcc & Hpc & Hpl & Hpcc & Vpc & Vpl & Vpcc);
    try reflexivity; [exact Hpos |].
  destruct (normal_cdf_scalar_vals M cy cmu cs NInf (Fin mu) (Fin sigma))
    as (nc & nl & ncc & Hnc & Hnl & Hncc & Vnc & Vnl & Vncc);
    try reflexivity; [exact Hpos |].
  rewrite Ep in Vpc, Vpl, Vpcc; rewrite En in Vnc, Vnl, Vncc.
  rewrite Cp in Vpc; rewrite Cn in Vnc.
  rewrite Pp in Vpl; rewrite Mp in Vpcc.
  rewrite Pn in Vnl; rewrite Mn in Vncc.
  repeat split; eexists; split; eassumption.
Qed.

Lemma tail_at_infinite_y_witness :
  exists r,
    normal_cdf cr_libm (Arg false (Scalar PInf))
      (Arg false (Scalar (Fin 0))) (Arg false (Scalar (Fin 1))) = Ok r
    /\ val r = Fin 1.
Proof.
  destruct (tail_at_infinite_y cr_libm false false false 0 1) as [H _];
    [lra | | exact H].
  destruct SQRT_2_bounds as (s2 & Hs2 & Hsb).
  rewrite Hs2, dmul_fin, Rmult_1_l.
  destruct (rnd_between_IZR 1 2 s2) as (s & -> & _);
    [reflexivity | reflexivity | exact Hsb | reflexivity].
Defined.
